(** * bee-repair: migration of legacy Swarm references and export of the
      local chunk index

    A shallow embedding of [internal/exporter/exporter.go] and of the
    [repair] package ([FileRepair], [DirectoryRepair] and their helpers),
    together with the properties of the specification that concern them.

    The external collaborators of the code (the content store and its
    joiner, the mantaray trie, the manifest builder, the shed index, the
    tar writer, the context) are not part of the repository.  Their
    observable behaviour is supplied by an environment record; each call
    site of the source consults the environment exactly where the source
    calls the collaborator. *)

From Stdlib Require Import ZArith NArith Strings.Byte Ascii String List Lia Sorted.
From stdpp Require Import gmap strings list.

Import ListNotations.
Local Open Scope string_scope.
Local Open Scope list_scope.
Local Open Scope Z_scope.

(** ** Errors and fallible, stateful computations *)

(** Go's [error] values are opaque to the code: they are only compared
    with [nil] and handed back to the caller.  An error is identified by
    its message. *)
Definition error : Type := string.

Inductive result (A : Type) : Type :=
| Ok (a : A)
| Err (e : error).
Arguments Ok {A} a.
Arguments Err {A} e.

(** Sequencing of calls that return [(value, error)]: the first error
    is returned at once, as [if err != nil { return nil, err }] does. *)
Definition rbind {A B} (r : result A) (k : A -> result B) : result B :=
  match r with
  | Ok a => k a
  | Err e => Err e
  end.

Notation "'let?' x ':=' r 'in' k" := (rbind r (fun x => k))
  (at level 10, x pattern, r at level 100, k at level 200).

(** A computation over a state [S] that may fail.  The state reached so
    far is kept on failure: a Go function that returns an error has still
    performed the writes that preceded it. *)
Definition M (S A : Type) : Type := S -> S * result A.

Definition ret {S A} (a : A) : M S A := fun s => (s, Ok a).
Definition fail {S A} (e : error) : M S A := fun s => (s, Err e).
Definition bind {S A B} (m : M S A) (k : A -> M S B) : M S B :=
  fun s => match m s with
           | (s', Ok a) => k a s'
           | (s', Err e) => (s', Err e)
           end.
Definition modify {S} (f : S -> S) : M S unit := fun s => (f s, Ok tt).
Definition gets {S A} (f : S -> A) : M S A := fun s => (s, Ok (f s)).
(** [if err != nil { return err }] for a collaborator whose failure is
    decided by the environment. *)
Definition check {S} (o : option error) : M S unit :=
  match o with
  | Some e => fail e
  | None => ret tt
  end.

Notation "'let*' x ':=' m 'in' k" := (bind m (fun x => k))
  (at level 10, x pattern, m at level 100, k at level 200).
Notation "'run*' m 'in' k" := (bind m (fun _ => k))
  (at level 10, m at level 100, k at level 200).

(** Go's [int] and [int64] on the supported platforms: 64 bits, two's
    complement, wrapping on overflow. *)
Definition maxInt : Z := 2 ^ 63 - 1.
Definition wrapInt (z : Z) : Z := (z + 2 ^ 63) mod 2 ^ 64 - 2 ^ 63.

(** ** encoding/hex *)

Definition hextable : string := "0123456789abcdef".

(** [hextable[n]]; the index is always below 16 at the call sites. *)
Definition hexDigit (n : N) : ascii :=
  match String.get (N.to_nat n) hextable with
  | Some c => c
  | None => "0"%char
  end.

(** [hex.EncodeToString]: two digits per byte, [v >> 4] then [v & 0x0f]. *)
Fixpoint EncodeToString (src : list byte) : string :=
  match src with
  | [] => ""
  | v :: rest =>
      String (hexDigit (N.shiftr (Byte.to_N v) 4))
        (String (hexDigit (N.land (Byte.to_N v) 15)) (EncodeToString rest))
  end.

(** The characters a lowercase hexadecimal string is made of. *)
Definition isLowerHex (c : ascii) : bool :=
  let n := N_of_ascii c in
  ((48 <=? n) && (n <=? 57) || (97 <=? n) && (n <=? 102))%N.

Fixpoint allChars (p : ascii -> bool) (s : string) : bool :=
  match s with
  | EmptyString => true
  | String c s' => p c && allChars p s'
  end.

(** ** The export engine: [internal/exporter/exporter.go] *)

Module Exporter.

(** filename in tar archive that holds the information about exported
    data format version *)
Definition ExportVersionFilename : string := ".swarm-export-version".
(** current export format version *)
Definition CurrentExportVersion : string := "1".
(** default export filename *)
Definition DefaultExportFilename : string := "swarm-exportdb.tar".

(** [shed.Item], restricted to the fields of the retrieval index
    [Address->StoreTimestamp|BinID|Data]. *)
Record Item : Type := {
  Address : list byte;
  Data : list byte;
  StoreTimestamp : Z;
  BinID : Z
}.

(** [tar.Header], restricted to the fields [export] sets. *)
Record Header : Type := {
  Name : string;
  Mode : Z;
  Size : Z
}.

(** One unit of the archive: a header and the bytes written under it. *)
Record ArchiveEntry : Type := {
  hdr : Header;
  payload : list byte
}.

(** [tar.Writer]: the entries that are complete, the entry being written
    and the number of operations performed on the underlying file. *)
Record Writer : Type := {
  written : list ArchiveEntry;
  curr : option ArchiveEntry;
  ops : nat
}.

Definition NewWriter : Writer := {| written := []; curr := None; ops := 0 |}.

(** What the progress sink has been told: the arguments of each
    [Update(done, total)] call, oldest first. *)
Definition UpdateLog : Type := list (Z * Z).

(** The environment of one export: the rows of the retrieval index in the
    order [Iterate] yields them (ascending key, the key being the
    address), and the failures of the collaborators. *)
Record Env : Type := {
  rows : list Item;
  openErr : option error;          (* shed.NewDB / NewIndex *)
  countErr : option error;         (* Index.Count *)
  createErr : option error;        (* os.Create *)
  iterateErr : nat -> option error; (* the iterator, on reaching position i *)
  tarErr : nat -> option error;    (* the archive file, at operation i *)
  tarPartial : nat -> nat          (* bytes that reached the file when write i failed *)
}.

(** The mutable state [export] works on. *)
Record State : Type := {
  tw : Writer;
  doneCount : Z;
  updates : UpdateLog;
  twClosed : bool;
  dbClosed : bool
}.

Definition initState : State :=
  {| tw := NewWriter; doneCount := 0; updates := [];
     twClosed := false; dbClosed := false |}.

Definition setWriter (w : Writer) (s : State) : State :=
  {| tw := w; doneCount := doneCount s; updates := updates s;
     twClosed := twClosed s; dbClosed := dbClosed s |}.

Definition setDoneCount (d : Z) (s : State) : State :=
  {| tw := tw s; doneCount := d; updates := updates s;
     twClosed := twClosed s; dbClosed := dbClosed s |}.

(** [e.updater.Update(done, total)] *)
Definition Update (total : Z) : M State unit :=
  fun s =>
    ({| tw := tw s; doneCount := doneCount s;
        updates := updates s ++ [(doneCount s, total)];
        twClosed := twClosed s; dbClosed := dbClosed s |}, Ok tt).

(** Bytes still owed to the entry being written. *)
Definition remaining (w : Writer) : Z :=
  match curr w with
  | Some e => Size (hdr e) - Z.of_nat (List.length (payload e))
  | None => 0
  end.

(** The archive as a reader sees it once the writer is closed. *)
Definition flush (w : Writer) : list ArchiveEntry :=
  written w ++ match curr w with Some e => [e] | None => [] end.

Definition ErrWriteTooLong : error := "archive/tar: write too long".
Definition ErrMissedWriting : error := "archive/tar: missed writing bytes".

(** The size of the block a header is written as. *)
Definition blockSize : nat := 512.

(** [tw.WriteHeader(hdr)]: the previous entry must be complete.  The
    header goes to the file as one block.  When the write fails, a header
    that did not reach the file whole is no entry for a reader: the
    archive then ends with the entries written before it; a header that
    did is an entry without data. *)
Definition WriteHeader (env : Env) (h : Header) : M State unit :=
  fun s =>
    let w := tw s in
    match tarErr env (ops w) with
    | Some e =>
        if (tarPartial env (ops w) <? blockSize)%nat
        then (s, Err e)
        else (setWriter {| written := flush w;
                           curr := Some {| hdr := h; payload := [] |};
                           ops := ops w |} s, Err e)
    | None =>
        if 0 <? remaining w then (s, Err ErrMissedWriting)
        else (setWriter {| written := flush w;
                           curr := Some {| hdr := h; payload := [] |};
                           ops := S (ops w) |} s, Ok tt)
    end.

(** [tw.Write(b)]: at most [remaining] bytes are accepted.  The writer
    hands them to the file as they come, so a write that fails may have
    left some of them in the archive. *)
Definition Write (env : Env) (b : list byte) : M State unit :=
  fun s =>
    let w := tw s in
    match tarErr env (ops w) with
    | Some e =>
        match curr w with
        | None => (s, Err e)
        | Some en =>
            let room := Z.to_nat (remaining w) in
            let sent := take (tarPartial env (ops w)) (take room b) in
            (setWriter {| written := written w;
                          curr := Some {| hdr := hdr en; payload := payload en ++ sent |};
                          ops := ops w |} s, Err e)
        end
    | None =>
        match curr w with
        | None =>
            match b with
            | [] => (s, Ok tt)
            | _ :: _ => (s, Err ErrWriteTooLong)
            end
        | Some e =>
            let room := Z.to_nat (remaining w) in
            let e' := {| hdr := hdr e; payload := payload e ++ take room b |} in
            let s' := setWriter {| written := written w; curr := Some e';
                                   ops := S (ops w) |} s in
            if Z.of_nat (List.length b) >? remaining w
            then (s', Err ErrWriteTooLong)
            else (s', Ok tt)
        end
    end.

(** [e.retrievalIndex.Count()] *)
Definition Count (env : Env) : M State Z :=
  match countErr env with
  | Some e => fail e
  | None => ret (Z.of_nat (List.length (rows env)))
  end.

(** [e.retrievalIndex.Iterate(fn, nil)]: [fn] is called on every row in
    order until it asks to stop or fails. *)
Fixpoint Iterate (env : Env) (fn : Item -> M State bool)
    (i : nat) (items : list Item) : M State unit :=
  match items with
  | [] => check (iterateErr env i)
  | item :: rest =>
      run* check (iterateErr env i) in
      let* stop := fn item in
      if stop : bool then ret tt else Iterate env fn (S i) rest
  end.

(** The function literal handed to [Iterate]. *)
Definition exportItem (env : Env) (total : Z) (item : Item) : M State bool :=
  let hdr := {| Name := EncodeToString (Address item);
                Mode := 420;
                Size := Z.of_nat (List.length (Data item)) |} in
  run* WriteHeader env hdr in
  run* Write env (Data item) in
  run* modify (fun s => setDoneCount (wrapInt (doneCount s + 1)) s) in
  run* Update total in
  ret false.

(** The body of the method [export] of [exporter], before the deferred calls. *)
Definition exportBody (env : Env) : M State unit :=
  let* total := Count env in
  run* check (createErr env) in
  run* modify (setWriter NewWriter) in
  run* WriteHeader env {| Name := ExportVersionFilename;
                          Mode := 420;
                          Size := Z.of_nat (String.length CurrentExportVersion) |} in
  run* Write env (list_byte_of_string CurrentExportVersion) in
  run* modify (setDoneCount 0) in
  run* Update total in
  Iterate env (exportItem env total) 0 (rows env).

(** The deferred [tw.Close()] (registered once the writer exists) and
    [e.closer.Close()] (registered first, run last). *)
Definition runDeferred (env : Env) (s : State) : State :=
  {| tw := tw s; doneCount := doneCount s; updates := updates s;
     twClosed := match countErr env, createErr env with
                 | None, None => true
                 | _, _ => false
                 end;
     dbClosed := true |}.

Definition export (env : Env) : State * result unit :=
  let (s, r) := exportBody env initState in (runDeferred env s, r).

(** [Export(src, opts...)] *)
Definition Export (env : Env) : State * result unit :=
  match openErr env with
  | Some e => (initState, Err ("Invalid source directory err:" +:+ e))
  | None => export env
  end.

(** What an observer of one export sees. *)
Definition exportErr (env : Env) : option error :=
  match snd (export env) with Ok _ => None | Err e => Some e end.
Definition archive (env : Env) : list ArchiveEntry := flush (tw (fst (export env))).
Definition progress (env : Env) : UpdateLog := updates (fst (export env)).

(** The entries the specification expects. *)
Definition versionEntry : ArchiveEntry :=
  {| hdr := {| Name := ExportVersionFilename; Mode := 420;
               Size := Z.of_nat (String.length CurrentExportVersion) |};
     payload := list_byte_of_string CurrentExportVersion |}.

Definition chunkEntry (item : Item) : ArchiveEntry :=
  {| hdr := {| Name := EncodeToString (Address item); Mode := 420;
               Size := Z.of_nat (List.length (Data item)) |};
     payload := Data item |}.

(** The writer is between entries: nothing is owed to the current one. *)
Definition settled (s : State) : Prop := remaining (tw s) = 0.

(** The calls [k, k+1, ...] made to the progress sink, with the total they
    all carry. *)
Definition updatesFrom (total : Z) (k n : nat) : Exporter.UpdateLog :=
  map (fun d => (Z.of_nat d, total)) (seq k n).

(** The state in which the iteration starts, when the export gets that
    far: the version marker is written and [Update(0, total)] is made. *)
Definition afterMarker (total : Z) : State :=
  {| tw := {| written := []; curr := Some versionEntry; ops := 2 |};
     doneCount := 0; updates := [(0, total)];
     twClosed := false; dbClosed := false |}.

End Exporter.

(** ** The migration orchestrator: package [repair] *)

Module Repair.

(** *** Types of the collaborating packages *)

(** [swarm.Address] is a byte slice; [swarm.ZeroAddress] is the address
    made of no bytes. *)
Definition Address : Type := list byte.
Definition ZeroAddress : Address := [].

(** [swarm.ChunkSize] *)
Definition ChunkSize : nat := 4096.
Definition limitMetadataLength : nat := ChunkSize.

(** Constants of package [manifest]. *)
Definition RootPath : string := "/".
Definition WebsiteIndexDocumentSuffixKey : string := "website-index-document".
Definition WebsiteErrorDocumentPathKey : string := "website-error-document".
Definition EntryMetadataContentTypeKey : string := "Content-Type".
Definition EntryMetadataFilenameKey : string := "Filename".

(** [entry.Entry]: a legacy record pairing a content reference with the
    reference of a metadata blob. *)
Record entry_Entry : Type := {
  reference : Address;
  metadata : Address
}.

(** [entry.Metadata] *)
Record entry_Metadata : Type := {
  MimeType : string;
  Filename : string
}.

(** [manifest.Entry], as built by [manifest.NewEntry]. *)
Record manifest_Entry : Type := NewEntry {
  Reference : Address;
  Metadata : gmap string string
}.

Record fileEntry : Type := {
  filepath : string;
  e : entry_Entry;
  mtdt : entry_Metadata
}.

(** *** The content store, seen through a joiner *)

(** What successive reads of a joiner deliver: the next piece of the
    blob, or a failure of the store. *)
Inductive ReadStep : Type :=
| ReadChunk (b : list byte)
| ReadFail (err : error).

Definition Joiner : Type := list ReadStep.

(** The two writers [getOldFileEntry] reads into: a plain [bytes.Buffer]
    ([limit = None]) and a buffer behind [cmdfile.NewLimitWriteCloser]. *)
Record WriteCloser : Type := {
  buf : list byte;
  total : nat;
  limit : option nat
}.

Definition NewBuffer : WriteCloser := {| buf := []; total := 0; limit := None |}.

(** Modelled from the spec: the bounded reader of section 6, "a read
    operation that aborts if more than a fixed byte ceiling is read"
    ([cmdfile.NewLimitWriteCloser] and its [Write], whose source is not
    available). *)
Definition NewLimitWriteCloser (c : nat) : WriteCloser :=
  {| buf := []; total := 0; limit := Some c |}.

Definition ErrOverflow : error := "overflow".

Definition WriteTo (w : WriteCloser) (b : list byte) : result WriteCloser :=
  let grown := {| buf := buf w ++ b;
                  total := (total w + List.length b)%nat;
                  limit := limit w |} in
  match limit w with
  | Some c => if (c <? total w + List.length b)%nat then Err ErrOverflow else Ok grown
  | None => Ok grown
  end.

(** [file.JoinReadAll(ctx, j, w)]: every piece read is written to [w];
    the first failure of either side is returned. *)
Fixpoint JoinReadAll (j : Joiner) (w : WriteCloser) : result WriteCloser :=
  match j with
  | [] => Ok w
  | ReadFail err :: _ => Err err
  | ReadChunk b :: j' =>
      let? w' := WriteTo w b in
      JoinReadAll j' w'
  end.

(** The number of bytes a joiner holds. *)
Fixpoint joinerSize (j : Joiner) : nat :=
  match j with
  | [] => 0
  | ReadFail _ :: _ => 0
  | ReadChunk b :: j' => (List.length b + joinerSize j')%nat
  end.

(** *** The legacy trie *)

(** What [LookupNode] gives access to: [Entry()] and [Metadata()]. *)
Record NodeInfo : Type := {
  nodeEntry : list byte;
  nodeMetadata : gmap string string
}.

(** One call of the walk function by [Walk]. *)
Record Visit : Type := {
  vPath : string;
  vIsDir : bool;
  vErr : option error
}.

(** A decoded [mantaray.Node]: path lookup, the visits [Walk] makes from
    the empty path, in order, and the error [Walk] ends with when the
    trie itself cannot be traversed to the end. *)
Record Node : Type := {
  LookupNode : string -> result NodeInfo;
  walkVisits : list Visit;
  walkErr : option error
}.

(** The number of leaf (file) nodes of the legacy tree. *)
Definition isLeaf (v : Visit) : bool := negb (vIsDir v).
Definition leaves (n : Node) : list Visit := List.filter isLeaf (walkVisits n).

(** *** The environment of one migration call *)

Record World : Type := {
  joinerNew : Address -> result Joiner;                 (* joiner.New *)
  entryUnmarshalBinary : list byte -> result entry_Entry; (* Entry.UnmarshalBinary *)
  jsonUnmarshal : list byte -> result entry_Metadata;   (* json.Unmarshal *)
  nodeUnmarshalBinary : list byte -> result Node;       (* Node.UnmarshalBinary *)
  newManifestErr : option error;                        (* NewDefaultManifest *)
  persistErr : gmap string manifest_Entry -> string -> manifest_Entry -> option error;
  saveManifest : gmap string manifest_Entry -> result Address;
  ctxErr : error                                        (* ctx.Err() once cancelled *)
}.

(** *** The new manifest *)

Definition ErrDuplicatePath : error := "duplicate path".

(** Modelled from the spec: the New Manifest Builder of section 4.3, an
    accumulator keyed by path whose [Add] "fails if path was already
    added (duplicate-path error) or if the underlying persistence call
    fails", and whose [Store] persists the structure and returns its
    reference. *)
Definition Add (w : World) (m : gmap string manifest_Entry)
    (path : string) (entry : manifest_Entry) : result (gmap string manifest_Entry) :=
  match m !! path with
  | Some _ => Err ErrDuplicatePath
  | None =>
      match persistErr w m path entry with
      | Some err => Err err
      | None => Ok (<[path := entry]> m)
      end
  end.

Definition Store (w : World) (m : gmap string manifest_Entry) : result Address :=
  saveManifest w m.

(** *** What a migration call does to the outside *)

Inductive Event : Type :=
| EvUpdate (msg : string)                      (* r.updater.Update(msg) *)
| EvAdd (path : string) (entry : manifest_Entry) (* Add(ctx, path, entry) is called *)
| EvStore                                      (* Store(ctx) is called *)
| EvGo                                         (* the walk task is started *)
| EvSendFile (f : fileEntry)                   (* entryChan <- fentry completes *)
| EvSendErr (err : error)                      (* errChan <- err completes *)
| EvCloseErrC                                  (* close(errChan) *)
| EvCloseFilesC                                (* close(entryChan) *)
| EvCancel                                     (* the context is cancelled *)
| EvCtxDone.                                   (* case <-ctx.Done() is taken *)

Definition updMsg (f : fileEntry) : string :=
  "Updating reference for file " +:+ Filename (mtdt f).

(** The manifest entry both entry points add for a file. *)
Definition fileManifestEntry (f : fileEntry) : manifest_Entry :=
  NewEntry (reference (e f))
    (<[EntryMetadataFilenameKey := Filename (mtdt f)]>
       (<[EntryMetadataContentTypeKey := MimeType (mtdt f)]> ∅)).

(** *** [getOldFileEntry] *)

Definition getOldFileEntry (w : World) (addr : Address) : result fileEntry :=
  let limitBuf := NewLimitWriteCloser limitMetadataLength in
  let? j := joinerNew w addr in
  let? read := JoinReadAll j limitBuf in
  let? e := entryUnmarshalBinary w (buf read) in
  let? j := joinerNew w (metadata e) in
  let? read := JoinReadAll j NewBuffer in
  let? metaData := jsonUnmarshal w (buf read) in
  Ok {| filepath := ""; e := e; mtdt := metaData |}.

(** *** State shared by the two entry points *)

(** The manifest under construction and the log of what the call has done
    to the outside so far, oldest event first. *)
Record Effects : Type := {
  man : gmap string manifest_Entry;
  trace : list Event
}.

Definition noEffects : Effects := {| man := ∅; trace := [] |}.

Definition emit (ev : Event) (fx : Effects) : Effects :=
  {| man := man fx; trace := trace fx ++ [ev] |}.

Definition setMan (m : gmap string manifest_Entry) (fx : Effects) : Effects :=
  {| man := m; trace := trace fx |}.

(** What a call hands back: [(swarm.Address, error)]. *)
Definition Returned : Type := (Address * option error)%type.

(** A statement block that ends by returning. *)
Definition Block (S : Type) : Type := S -> S * Returned.

(** A call of a fallible operation followed by
    [if err != nil { return <ret> }]. *)
Definition orReturn {S A} (m : M S A) (onErr : error -> Returned)
    (k : A -> Block S) : Block S :=
  fun s => match m s with
           | (s', Ok a) => k a s'
           | (s', Err err) => (s', onErr err)
           end.

(** A statement that cannot fail, then the rest of the block. *)
Definition andThen {S} (f : S -> S) (k : Block S) : Block S := fun s => k (f s).

Definition returning {S} (r : Returned) : Block S := fun s => (s, r).

Definition lift {S A} (r : result A) : M S A := fun s => (s, r).

Notation "'try' x ':=' m 'else' err '=>' r 'in' k" :=
  (orReturn m (fun err => r) (fun x => k))
  (at level 10, x pattern, err name, m at level 100, r at level 100,
   k at level 200).
Notation "'exec' f 'in' k" := (andThen f k)
  (at level 10, f at level 100, k at level 200).

(** [manifest.NewDefaultManifest(ls, encrypted)]: a fresh, empty manifest. *)
Definition NewDefaultManifest (w : World) : M Effects unit :=
  run* check (newManifestErr w) in
  modify (setMan ∅).

(** [m.Add(ctx, path, entry)] on the manifest under construction. *)
Definition AddM (w : World) (path : string) (entry : manifest_Entry) : M Effects unit :=
  run* modify (emit (EvAdd path entry)) in
  let* m := gets man in
  let* m' := lift (Add w m path entry) in
  modify (setMan m').

(** [m.Store(ctx)] *)
Definition StoreM (w : World) : M Effects Address :=
  run* modify (emit EvStore) in
  let* m := gets man in
  lift (Store w m).

(** *** [FileRepair] *)

Definition FileRepair (w : World) (addr : Address) : Effects * Returned :=
  (try oldEntry := lift (getOldFileEntry w addr)
     else err => (ZeroAddress, Some err) in
   exec emit (EvUpdate (updMsg oldEntry)) in
   try _ := NewDefaultManifest w
     else err => (ZeroAddress, Some err) in
   try _ := AddM w RootPath
              (NewEntry ZeroAddress
                 (<[WebsiteIndexDocumentSuffixKey := Filename (mtdt oldEntry)]> ∅))
     else err => (ZeroAddress, Some err) in
   try _ := AddM w (Filename (mtdt oldEntry)) (fileManifestEntry oldEntry)
     else err => (ZeroAddress, Some err) in
   try newReference := StoreM w
     else err => (ZeroAddress, Some err) in
   returning (newReference, None))
    noEffects.

(** *** [getOldDirectoryEntry] and [DirectoryRepair] *)

(** The legacy directory once decoded: the trie and its root path node. *)
Record Dir : Type := {
  node : Node;
  rootNode : NodeInfo
}.

(** The part of [getOldDirectoryEntry] that runs before the walk task is
    started: read and decode the trie, look up its root path. *)
Definition loadOldDirectory (w : World) (addr : Address) : result Dir :=
  let? j := joinerNew w addr in
  let? read := JoinReadAll j NewBuffer in
  let? node := nodeUnmarshalBinary w (buf read) in
  let? rootNode := LookupNode node RootPath in
  Ok {| node := node; rootNode := rootNode |}.

(** [walkFn]: [Ok None] is the plain [return nil], [Ok (Some fentry)]
    is [return nil] after [entryChan <- fentry]. *)
Definition walkFn (w : World) (n : Node) (v : Visit) : result (option fileEntry) :=
  match vErr v with
  | Some err => Err err
  | None =>
      if vIsDir v then Ok None
      else
        let? fnode := LookupNode n (vPath v) in
        let? fentry := getOldFileEntry w (nodeEntry fnode) in
        Ok (Some {| filepath := vPath v; e := e fentry; mtdt := mtdt fentry |})
  end.

(** Where the calling task stands. *)
Inductive MainPC : Type :=
| MNewManifest               (* m, err := manifest.NewDefaultManifest(...) *)
| MCheckNew                  (* if err != nil { return nil, err } *)
| MAddRoot                   (* err = m.Add(ctx, manifest.RootPath, ...) *)
| MCheckAdd                  (* if err != nil { return nil, err } *)
| MSelect                    (* the select statement of DirectoryRepair *)
| MHandle (f : fileEntry)    (* Update and Add for a received entry *)
| MStore                     (* newReference, err := dir.m.Store(ctx) *)
| MReturn (ref : Address) (err : option error).

(** Where the walk task stands. *)
Inductive WalkPC : Type :=
| WNotStarted
| WWalk (rest : list Visit)                 (* inside node.Walk *)
| WSend (f : fileEntry) (rest : list Visit) (* blocked in entryChan <- fentry *)
| WAssign (r : option error)                (* err = <what Walk returned> *)
| WCheck                                    (* if err != nil *)
| WSendErr (err : error)                    (* blocked in errChan <- err *)
| WCloseErr                                 (* deferred close(errChan) *)
| WCloseFiles                               (* deferred close(entryChan) *)
| WExit.

(** The state of one [DirectoryRepair] call.  [err] is the variable
    [err] of [getOldDirectoryEntry]: the function literal of the walk
    task assigns to it, and so do the statements that follow the [go]
    statement. *)
Record DState : Type := {
  mainPC : MainPC;
  walkPC : WalkPC;
  err : option error;
  fx : Effects;
  errClosed : bool;
  filesClosed : bool;
  cancelled : bool
}.

Definition setMain (pc : MainPC) (s : DState) : DState :=
  {| mainPC := pc; walkPC := walkPC s; err := err s; fx := fx s;
     errClosed := errClosed s; filesClosed := filesClosed s;
     cancelled := cancelled s |}.

Definition setWalk (pc : WalkPC) (s : DState) : DState :=
  {| mainPC := mainPC s; walkPC := pc; err := err s; fx := fx s;
     errClosed := errClosed s; filesClosed := filesClosed s;
     cancelled := cancelled s |}.

Definition setErr (v : option error) (s : DState) : DState :=
  {| mainPC := mainPC s; walkPC := walkPC s; err := v; fx := fx s;
     errClosed := errClosed s; filesClosed := filesClosed s;
     cancelled := cancelled s |}.

Definition setFx (f : Effects) (s : DState) : DState :=
  {| mainPC := mainPC s; walkPC := walkPC s; err := err s; fx := f;
     errClosed := errClosed s; filesClosed := filesClosed s;
     cancelled := cancelled s |}.

Definition record (ev : Event) (s : DState) : DState := setFx (emit ev (fx s)) s.

Definition closeErrC (s : DState) : DState :=
  {| mainPC := mainPC s; walkPC := walkPC s; err := err s; fx := fx s;
     errClosed := true; filesClosed := filesClosed s;
     cancelled := cancelled s |}.

Definition closeFilesC (s : DState) : DState :=
  {| mainPC := mainPC s; walkPC := walkPC s; err := err s; fx := fx s;
     errClosed := errClosed s; filesClosed := true;
     cancelled := cancelled s |}.

Definition cancel (s : DState) : DState :=
  {| mainPC := mainPC s; walkPC := walkPC s; err := err s; fx := fx s;
     errClosed := errClosed s; filesClosed := filesClosed s;
     cancelled := true |}.

(** [ctx.Err()] *)
Definition ctxErrOf (w : World) (s : DState) : option error :=
  if cancelled s then Some (ctxErr w) else None.

(** The root path entry [getOldDirectoryEntry] seeds the manifest with. *)
Definition rootManifestEntry (d : Dir) : manifest_Entry :=
  NewEntry ZeroAddress (nodeMetadata (rootNode d)).

(** One statement of the walk task. *)
Definition stepWalk (w : World) (d : Dir) (s : DState) : DState :=
  match walkPC s with
  | WWalk [] => setWalk (WAssign (walkErr (node d))) s
  | WWalk (v :: rest) =>
      match walkFn w (node d) v with
      | Err err => setWalk (WAssign (Some err)) s
      | Ok None => setWalk (WWalk rest) s
      | Ok (Some fentry) => setWalk (WSend fentry rest) s
      end
  | WAssign r => setWalk WCheck (setErr r s)
  | WCheck =>
      match err s with
      | Some err => setWalk (WSendErr err) s
      | None => setWalk WCloseErr s
      end
  | WCloseErr => setWalk WCloseFiles (record EvCloseErrC (closeErrC s))
  | WCloseFiles => setWalk WExit (record EvCloseFilesC (closeFilesC s))
  | WNotStarted | WSend _ _ | WSendErr _ | WExit => s
  end.

(** One statement of the calling task outside the select. *)
Definition stepMain (w : World) (d : Dir) (s : DState) : DState :=
  match mainPC s with
  | MNewManifest =>
      match NewDefaultManifest w (fx s) with
      | (fx', Ok _) => setMain MCheckNew (setErr None (setFx fx' s))
      | (fx', Err err) => setMain MCheckNew (setErr (Some err) (setFx fx' s))
      end
  | MCheckNew =>
      match err s with
      | Some err => setMain (MReturn ZeroAddress (Some err)) s
      | None => setMain MAddRoot s
      end
  | MAddRoot =>
      match AddM w RootPath (rootManifestEntry d) (fx s) with
      | (fx', Ok _) => setMain MCheckAdd (setErr None (setFx fx' s))
      | (fx', Err err) => setMain MCheckAdd (setErr (Some err) (setFx fx' s))
      end
  | MCheckAdd =>
      match err s with
      | Some err => setMain (MReturn ZeroAddress (Some err)) s
      | None => setMain MSelect s
      end
  | MHandle f =>
      let s := record (EvUpdate (updMsg f)) s in
      match AddM w (filepath f) (fileManifestEntry f) (fx s) with
      | (fx', Ok _) => setMain MSelect (setFx fx' s)
      | (fx', Err err) => setMain (MReturn ZeroAddress (Some err)) (setFx fx' s)
      end
  | MStore =>
      match StoreM w (fx s) with
      | (fx', Ok newReference) => setMain (MReturn newReference None) (setFx fx' s)
      | (fx', Err err) => setMain (MReturn ZeroAddress (Some err)) (setFx fx' s)
      end
  | MSelect | MReturn _ _ => s
  end.

(** [case f, ok := <-dir.filesC] *)
Definition selectFiles (s : DState) : DState :=
  match mainPC s, walkPC s with
  | MSelect, WSend f rest =>
      setMain (MHandle f) (setWalk (WWalk rest) (record (EvSendFile f) s))
  | MSelect, _ => if filesClosed s then setMain MStore s else s
  | _, _ => s
  end.

(** [case e, ok := <-dir.errC] *)
Definition selectErr (s : DState) : DState :=
  match mainPC s, walkPC s with
  | MSelect, WSendErr e =>
      setMain (MReturn ZeroAddress (Some e))
        (setWalk WCloseErr (record (EvSendErr e) s))
  | MSelect, _ => if errClosed s then setMain MStore s else s
  | _, _ => s
  end.

(** [case <-ctx.Done()] *)
Definition selectDone (w : World) (s : DState) : DState :=
  match mainPC s with
  | MSelect =>
      if cancelled s then
        let s := record EvCtxDone s in
        match ctxErrOf w s with
        | Some err => setMain (MReturn ZeroAddress (Some err)) s
        | None => setMain MStore s
        end
      else s
  | _ => s
  end.

(** What can happen next: a statement of either task, one of the three
    communications of the select statement (any ready one may be
    chosen), or the cancellation of the context by the caller. *)
Inductive Choice : Type :=
| RunMain
| RunWalk
| SelFiles
| SelErr
| SelDone
| Cancel.

Definition step (w : World) (d : Dir) (s : DState) (c : Choice) : DState :=
  match c with
  | RunMain => stepMain w d s
  | RunWalk => stepWalk w d s
  | SelFiles => selectFiles s
  | SelErr => selectErr s
  | SelDone => selectDone w s
  | Cancel => if cancelled s then s else record EvCancel (cancel s)
  end.

(** The state right after the [go] statement. *)
Definition spawned (d : Dir) : DState :=
  {| mainPC := MNewManifest;
     walkPC := WWalk (walkVisits (node d));
     err := None;
     fx := emit EvGo noEffects;
     errClosed := false; filesClosed := false; cancelled := false |}.

(** The state when the trie could not be loaded: the call has returned
    at once. *)
Definition notSpawned (err : error) : DState :=
  {| mainPC := MReturn ZeroAddress (Some err);
     walkPC := WNotStarted;
     err := Some err;
     fx := noEffects;
     errClosed := false; filesClosed := false; cancelled := false |}.

(** [DirectoryRepair] under a schedule: the state reached after the
    choices of [sched] have been made in turn. *)
Definition DirectoryRepair (w : World) (addr : Address) (sched : list Choice) : DState :=
  match loadOldDirectory w addr with
  | Err err => notSpawned err
  | Ok d => fold_left (step w d) sched (spawned d)
  end.

(** What the call has returned, once it has. *)
Definition returned (s : DState) : option Returned :=
  match mainPC s with
  | MReturn ref err => Some (ref, err)
  | _ => None
  end.

(** *** Readings of the log *)

Definition updatesOf (tr : list Event) : list string :=
  omap (fun ev => match ev with EvUpdate msg => Some msg | _ => None end) tr.

Definition addsOf (tr : list Event) : list (string * manifest_Entry) :=
  omap (fun ev => match ev with EvAdd p en => Some (p, en) | _ => None end) tr.

Definition sentFiles (tr : list Event) : list fileEntry :=
  omap (fun ev => match ev with EvSendFile f => Some f | _ => None end) tr.

Definition sentErrs (tr : list Event) : list error :=
  omap (fun ev => match ev with EvSendErr err => Some err | _ => None end) tr.

Definition countEv (p : Event -> bool) (tr : list Event) : nat :=
  List.length (List.filter p tr).

Definition isStore (ev : Event) : bool := match ev with EvStore => true | _ => false end.
Definition isGo (ev : Event) : bool := match ev with EvGo => true | _ => false end.
Definition isCloseErrC (ev : Event) : bool :=
  match ev with EvCloseErrC => true | _ => false end.
Definition isCloseFilesC (ev : Event) : bool :=
  match ev with EvCloseFilesC => true | _ => false end.
Definition isCtxDone (ev : Event) : bool :=
  match ev with EvCtxDone => true | _ => false end.
Definition isCancel (ev : Event) : bool :=
  match ev with EvCancel => true | _ => false end.
Definition isAdd (ev : Event) : bool :=
  match ev with EvAdd _ _ => true | _ => false end.

(** What the walk sends before it ends, and what [Walk] returns. *)
Fixpoint walkRun (w : World) (n : Node) (vs : list Visit) : list fileEntry * option error :=
  match vs with
  | [] => ([], walkErr n)
  | v :: rest =>
      match walkFn w n v with
      | Err err => ([], Some err)
      | Ok None => walkRun w n rest
      | Ok (Some f) => let (fs, r) := walkRun w n rest in (f :: fs, r)
      end
  end.

(** *** Predicates on the states of a migration *)

(** The entry [walkFn] sends for a leaf: it carries the path of the leaf
    and the legacy entry and metadata records the leaf refers to. *)
Definition entryOfLeaf (w : World) (n : Node) (f : fileEntry) (v : Visit) : Prop :=
  filepath f = vPath v /\
  exists fnode old,
    LookupNode n (vPath v) = Ok fnode /\
    getOldFileEntry w (nodeEntry fnode) = Ok old /\
    e f = e old /\ mtdt f = mtdt old.

(** What the manifest says of a leaf whose entry is in it. *)
Definition migrated (w : World) (n : Node) (m : gmap string manifest_Entry)
    (v : Visit) : Prop :=
  exists fnode old,
    LookupNode n (vPath v) = Ok fnode /\
    getOldFileEntry w (nodeEntry fnode) = Ok old /\
    m !! vPath v =
      Some (NewEntry (reference (e old))
              (<[EntryMetadataFilenameKey := Filename (mtdt old)]>
                 (<[EntryMetadataContentTypeKey := MimeType (mtdt old)]> ∅))).

(** The [Add] call made for a received entry. *)
Definition leafAdd (f : fileEntry) : string * manifest_Entry :=
  (filepath f, fileManifestEntry f).

(** Every entry of [fs] is in the manifest under its path, with the
    reference, file name and MIME type of its legacy records. *)
Definition inManifest (m : gmap string manifest_Entry) (fs : list fileEntry) : Prop :=
  forall f, In f fs -> m !! filepath f = Some (fileManifestEntry f).

(** What a call that has returned has returned. *)
Definition storeOutcome (r : result Address) : Returned :=
  match r with
  | Ok ref => (ref, None)
  | Err err => (ZeroAddress, Some err)
  end.

(** The channels: the task is started once, each channel is closed at
    most once and only by the last two statements of the task, and at
    most one error is ever sent. *)
Definition channels (s : DState) : Prop :=
  countEv isGo (trace (fx s)) = 1%nat /\
  countEv isCloseErrC (trace (fx s)) = (if errClosed s then 1 else 0)%nat /\
  countEv isCloseFilesC (trace (fx s)) = (if filesClosed s then 1 else 0)%nat /\
  (length (sentErrs (trace (fx s))) <= 1)%nat /\
  match walkPC s with
  | WCloseErr => errClosed s = false /\ filesClosed s = false
  | WCloseFiles => errClosed s = true /\ filesClosed s = false
  | WExit => errClosed s = true /\ filesClosed s = true
  | _ => errClosed s = false /\ filesClosed s = false /\ sentErrs (trace (fx s)) = []
  end.

Section Directory.

Variable w : World.
Variable d : Dir.

Abbreviation log s := (trace (fx s)).

(** What the walk of this directory sends and returns. *)
Definition script : list fileEntry * option error :=
  walkRun w (node d) (walkVisits (node d)).

(** The states a schedule can lead to. *)
Definition reachable (s : DState) : Prop :=
  exists sched, s = fold_left (step w d) sched (spawned d).

(** The entries sent so far, followed by those the rest of the walk
    will send, are the entries of the script. *)
Definition walkProgress (s : DState) : Prop :=
  match walkPC s with
  | WNotStarted => False
  | WWalk rest =>
      sentFiles (log s) ++ fst (walkRun w (node d) rest) = fst script /\
      snd (walkRun w (node d) rest) = snd script
  | WSend f rest =>
      sentFiles (log s) ++ f :: fst (walkRun w (node d) rest) = fst script /\
      snd (walkRun w (node d) rest) = snd script
  | WAssign r => sentFiles (log s) = fst script /\ r = snd script
  | WCheck | WSendErr _ | WCloseErr | WCloseFiles | WExit =>
      sentFiles (log s) = fst script
  end.

(** The [Add] call that seeds the manifest. *)
Definition rootAdd : string * manifest_Entry := (RootPath, rootManifestEntry d).
(** The entries handled so far are those received, but for the one in
    hand; one progress notification and one [Add] were made for each, in
    order, after the one [Add] of the root path entry. *)
Definition mainLog (s : DState) : Prop :=
  exists hs,
    updatesOf (log s) = map updMsg hs /\
    match mainPC s with
    | MNewManifest | MCheckNew | MAddRoot =>
        sentFiles (log s) = [] /\ hs = [] /\ addsOf (log s) = []
    | MCheckAdd =>
        sentFiles (log s) = [] /\ hs = [] /\ addsOf (log s) = [rootAdd]
    | MSelect | MStore | MReturn _ None =>
        sentFiles (log s) = hs /\
        addsOf (log s) = rootAdd :: map leafAdd hs /\
        inManifest (man (fx s)) hs
    | MHandle f =>
        sentFiles (log s) = hs ++ [f] /\
        addsOf (log s) = rootAdd :: map leafAdd hs /\
        inManifest (man (fx s)) hs
    | MReturn _ (Some _) =>
        sentFiles (log s) = hs /\
        (addsOf (log s) = [] /\ hs = [] \/
         addsOf (log s) = rootAdd :: map leafAdd hs)
    end.

(** What the log and the state say once the call has returned. *)
Definition returns (s : DState) : Prop :=
  match mainPC s with
  | MReturn ref oe =>
      (oe <> None -> ref = ZeroAddress) /\
      (countEv isStore (log s) <= 1)%nat /\
      (countEv isCtxDone (log s) <= 1)%nat /\
      (countEv isStore (log s) = 1%nat ->
       (ref, oe) = storeOutcome (Store w (man (fx s))) /\
       (errClosed s = true \/ filesClosed s = true)) /\
      (oe = None -> countEv isStore (log s) = 1%nat) /\
      (countEv isCtxDone (log s) = 1%nat ->
       ref = ZeroAddress /\ oe = Some (ctxErr w) /\
       countEv isStore (log s) = 0%nat)
  | MStore =>
      countEv isStore (log s) = 0%nat /\ countEv isCtxDone (log s) = 0%nat /\
      (errClosed s = true \/ filesClosed s = true)
  | _ =>
      countEv isStore (log s) = 0%nat /\ countEv isCtxDone (log s) = 0%nat
  end.




End Directory.

End Repair.

(** * Worked environments *)

Module Examples.
Import Repair.

(** The double quote and the backslash. *)
Definition quoteChar : ascii := ascii_of_nat 34.
Definition backslashChar : ascii := ascii_of_nat 92.
Definition quote : string := String quoteChar EmptyString.

(** The encoding [json.Marshal] gives an [entry.Metadata] whose strings
    need no escaping. *)
Definition metadataJSON (name mime : string) : list byte :=
  list_byte_of_string
    ("{" +:+ quote +:+ "mimetype" +:+ quote +:+ ":" +:+ quote +:+ mime +:+ quote +:+
     "," +:+ quote +:+ "filename" +:+ quote +:+ ":" +:+ quote +:+ name +:+ quote +:+ "}").

Fixpoint stripPrefix (p s : string) : option string :=
  match p, s with
  | EmptyString, _ => Some s
  | String c p', String c' s' => if Ascii.eqb c c' then stripPrefix p' s' else None
  | String _ _, EmptyString => None
  end.

(** The text up to the next double quote, and what follows the quote. *)
Fixpoint untilQuote (s : string) : option (string * string) :=
  match s with
  | EmptyString => None
  | String c s' =>
      if Ascii.eqb c quoteChar then Some (EmptyString, s')
      else if Ascii.eqb c backslashChar then None
      else match untilQuote s' with
           | Some (text, rest) => Some (String c text, rest)
           | None => None
           end
  end.

(** A decoder for the documents [metadataJSON] produces: the part of
    [json.Unmarshal] the examples need. *)
Definition decodeMetadataJSON (b : list byte) : result entry_Metadata :=
  let malformed := Err "invalid character" in
  match stripPrefix ("{" +:+ quote +:+ "mimetype" +:+ quote +:+ ":" +:+ quote)
                    (string_of_list_byte b) with
  | None => malformed
  | Some s1 =>
      match untilQuote s1 with
      | None => malformed
      | Some (mime, s2) =>
          match stripPrefix ("," +:+ quote +:+ "filename" +:+ quote +:+ ":" +:+ quote) s2 with
          | None => malformed
          | Some s3 =>
              match untilQuote s3 with
              | Some (name, "}") => Ok {| MimeType := mime; Filename := name |}
              | _ => malformed
              end
          end
      end
  end.

(** The layout of a serialized [entry.Entry]: two references of 32 bytes,
    or of 64 bytes when encrypted. *)
Definition decodeEntry (b : list byte) : result entry_Entry :=
  if (length b =? 64)%nat then Ok {| reference := take 32 b; metadata := drop 32 b |}
  else if (length b =? 128)%nat then Ok {| reference := take 64 b; metadata := drop 64 b |}
  else Err "invalid data length".

Fixpoint addr_eqb (a b : list byte) : bool :=
  match a, b with
  | [], [] => true
  | x :: a', y :: b' => Byte.eqb x y && addr_eqb a' b'
  | _, _ => false
  end.

(** A content store holding the given blobs; a blob is read chunk by
    chunk. *)
Definition joinerOf (data : list byte) : Joiner :=
  if (length data <=? ChunkSize)%nat then [ReadChunk data]
  else [ReadChunk (take ChunkSize data); ReadChunk (drop ChunkSize data)].

Fixpoint fetch (store : list (Address * list byte)) (addr : Address) : result Joiner :=
  match store with
  | [] => Err "storage: not found"
  | (a, data) :: store' => if addr_eqb a addr then Ok (joinerOf data) else fetch store' addr
  end.

Definition at32 (b : byte) : Address := repeat b 32.

Definition newManifestAddress : Address := at32 xff.

(** A world over a store and a decoded trie in which nothing else fails. *)
Definition world (store : list (Address * list byte)) (n : Node) : World :=
  {| joinerNew := fetch store;
     entryUnmarshalBinary := decodeEntry;
     jsonUnmarshal := decodeMetadataJSON;
     nodeUnmarshalBinary := fun _ => Ok n;
     newManifestErr := None;
     persistErr := fun _ _ _ => None;
     saveManifest := fun _ => Ok newManifestAddress;
     ctxErr := "context canceled" |}.

(** A legacy file: its serialized entry at [at32 x], the entry's content
    reference [at32 r] and its metadata at [at32 m]. *)
Definition legacyFile (x r m : byte) (name mime : string) : list (Address * list byte) :=
  [(at32 x, at32 r ++ at32 m); (at32 m, metadataJSON name mime)].

Definition noNode : Node :=
  {| LookupNode := fun _ => Err "not found"; walkVisits := []; walkErr := None |}.

(** The single-file scenario of the specification. *)
Definition simpleStore : list (Address * list byte) :=
  legacyFile x01 x02 x03 "simple.txt" "text/plain; charset=utf-8".

Definition simpleWorld : World := world simpleStore noNode.

(** The directory scenario of the specification: files at [a.txt],
    [b.jpeg] and [c/d.tar], index document [b.jpeg], error document
    [a.txt]. *)
Definition dirStore : list (Address * list byte) :=
  [(at32 xd0, [x01])] ++
  legacyFile x11 x12 x13 "a.txt" "text/plain; charset=utf-8" ++
  legacyFile x21 x22 x23 "b.jpeg" "image/jpeg; charset=utf-8" ++
  legacyFile x31 x32 x33 "d.tar" "application/x-tar".

Definition dirRootMetadata : gmap string string :=
  <[WebsiteIndexDocumentSuffixKey := "b.jpeg"]>
    (<[WebsiteErrorDocumentPathKey := "a.txt"]> ∅).

Definition dirLookup (path : string) : result NodeInfo :=
  if String.eqb path "/" then Ok {| nodeEntry := []; nodeMetadata := dirRootMetadata |}
  else if String.eqb path "a.txt" then Ok {| nodeEntry := at32 x11; nodeMetadata := ∅ |}
  else if String.eqb path "b.jpeg" then Ok {| nodeEntry := at32 x21; nodeMetadata := ∅ |}
  else if String.eqb path "c/d.tar" then Ok {| nodeEntry := at32 x31; nodeMetadata := ∅ |}
  else Err "not found".

Definition visitDir (p : string) : Visit := {| vPath := p; vIsDir := true; vErr := None |}.
Definition visitFile (p : string) : Visit := {| vPath := p; vIsDir := false; vErr := None |}.

Definition dirNode : Node :=
  {| LookupNode := dirLookup;
     walkVisits := [visitDir ""; visitDir "/"; visitFile "a.txt"; visitFile "b.jpeg";
                    visitDir "c/"; visitFile "c/d.tar"];
     walkErr := None |}.

Definition dirWorld : World := world dirStore dirNode.

(** A schedule that lets the calling task reach its select, then
    alternates: the walk task runs to its next send, the entry is received
    and handled; at the end the task closes the channels and the manifest
    is stored. *)
Definition toSelect : list Choice := [RunMain; RunMain; RunMain; RunMain].
Definition deliver (walkSteps : nat) : list Choice :=
  repeat RunWalk walkSteps ++ [SelFiles; RunMain].
Definition finishWalk : list Choice :=
  [RunWalk; RunWalk; RunWalk; RunWalk; RunWalk].
Definition dirSchedule : list Choice :=
  toSelect ++ deliver 3 ++ deliver 1 ++ deliver 2 ++ finishWalk ++ [SelFiles; RunMain].

(** The directory as [getOldDirectoryEntry] loads it. *)
Definition dirLoaded : Dir :=
  {| node := dirNode;
     rootNode := {| nodeEntry := []; nodeMetadata := dirRootMetadata |} |}.

(** A directory with the single file [a.txt]. *)
Definition oneFileStore : list (Address * list byte) :=
  [(at32 xd0, [x01])] ++ legacyFile x11 x12 x13 "a.txt" "text/plain; charset=utf-8".

Definition oneFileNode : Node :=
  {| LookupNode := dirLookup;
     walkVisits := [visitDir ""; visitDir "/"; visitFile "a.txt"];
     walkErr := None |}.

Definition oneFileWorld : World := world oneFileStore oneFileNode.


(** The same directory when the store has lost the entry of [a.txt]. *)
Definition brokenStore : list (Address * list byte) := [(at32 xd0, [x01])].

Definition brokenWorld : World := world brokenStore oneFileNode.

(** The walk fails on [a.txt] and assigns the error to [err]; the calling
    task then runs [m, err := manifest.NewDefaultManifest(...)]; only then
    does the walk task test [err]. *)
Definition raceSchedule : list Choice :=
  [RunWalk; RunWalk; RunWalk; RunWalk; RunMain; RunWalk; RunWalk; RunWalk;
   RunMain; RunMain; RunMain; SelFiles; RunMain].



(** A legacy directory without files: the walk visits directories only. *)
Definition emptyDirNode : Node :=
  {| LookupNode := dirLookup;
     walkVisits := [visitDir ""; visitDir "/"];
     walkErr := None |}.

Definition emptyDirLoaded : Dir :=
  {| node := emptyDirNode;
     rootNode := {| nodeEntry := []; nodeMetadata := dirRootMetadata |} |}.

(** The store holds that directory and fails to persist the root path
    entry of the new manifest. *)
Definition rootRefusedWorld : World :=
  {| joinerNew := fetch brokenStore;
     entryUnmarshalBinary := decodeEntry;
     jsonUnmarshal := decodeMetadataJSON;
     nodeUnmarshalBinary := fun _ => Ok emptyDirNode;
     newManifestErr := None;
     persistErr := fun _ path _ =>
                     if String.eqb path RootPath then Some "storage: write failed"
                     else None;
     saveManifest := fun _ => Ok newManifestAddress;
     ctxErr := "context canceled" |}.

(** The [Add] of the root path entry fails and assigns the error to
    [err]; the walk task, which has nothing to send, then assigns the
    [nil] that [Walk] returned; only then does the calling task test
    [err]. *)
Definition lostRootSchedule : list Choice :=
  [RunMain; RunMain; RunMain; RunWalk; RunWalk; RunWalk; RunWalk; RunMain;
   RunWalk; RunWalk; RunWalk; SelErr; RunMain].

(** A trie without a root path entry. *)
Definition noRootWorld : World := world dirStore noNode.

(** A legacy file whose metadata blob is larger than one chunk: the file
    name alone has 4200 characters. *)
Definition longName : string := string_of_list_byte (repeat x61 4200).

Definition bigStore : list (Address * list byte) :=
  legacyFile x01 x02 x03 longName "text/plain".

Definition bigWorld : World := world bigStore noNode.

(** The kind of each event of a log. *)
Definition kind (ev : Event) : string :=
  match ev with
  | EvUpdate _ => "update"
  | EvAdd _ _ => "add"
  | EvStore => "store"
  | EvGo => "go"
  | EvSendFile _ => "send"
  | EvSendErr _ => "sendErr"
  | EvCloseErrC => "closeErrC"
  | EvCloseFilesC => "closeFilesC"
  | EvCancel => "cancel"
  | EvCtxDone => "ctxDone"
  end.

End Examples.

Module ExporterExamples.
Import Exporter.

Definition quiet : nat -> option error := fun _ => None.

(** An index of two records, in key order. *)
Definition twoRows : list Item :=
  [ {| Address := [x0a; xbc]; Data := [x68; x69];
       StoreTimestamp := 1614556800; BinID := 1 |};
    {| Address := [xde; xad]; Data := [x62; x65; x65];
       StoreTimestamp := 1614556801; BinID := 2 |} ].

Definition twoRowEnv : Env :=
  {| rows := twoRows; openErr := None; countErr := None; createErr := None;
     iterateErr := quiet; tarErr := quiet; tarPartial := fun _ => 0%nat |}.

(** An index without records. *)
Definition emptyEnv : Env :=
  {| rows := []; openErr := None; countErr := None; createErr := None;
     iterateErr := quiet; tarErr := quiet; tarPartial := fun _ => 0%nat |}.

End ExporterExamples.

(** * The rest of the code *)

(** ** The retrieval index: [getRetrievalIndex] *)

Module RetrievalIndex.
Import Exporter.

(** [byte(v)]: the low eight bits of [v]. *)
Definition byteOf (v : Z) : byte :=
  match Byte.of_N (Z.to_N (Z.land v 255)) with
  | Some b => b
  | None => x00
  end.

(** [uint64(b)] for a byte [b]. *)
Definition byteVal (b : byte) : Z := Z.of_N (Byte.to_N b).

(** [uint64(x)] for an [int64]. *)
Definition toUint64 (x : Z) : Z := x mod 2 ^ 64.

(** [binary.BigEndian.PutUint64(b, v)]: the eight bytes written. *)
Definition PutUint64 (v : Z) : list byte :=
  [byteOf (Z.shiftr v 56); byteOf (Z.shiftr v 48); byteOf (Z.shiftr v 40);
   byteOf (Z.shiftr v 32); byteOf (Z.shiftr v 24); byteOf (Z.shiftr v 16);
   byteOf (Z.shiftr v 8); byteOf v].

(** [binary.BigEndian.Uint64(b)]; the index functions call it on slices
    of eight bytes. *)
Definition Uint64 (b : list byte) : Z :=
  match b with
  | [b0; b1; b2; b3; b4; b5; b6; b7] =>
      Z.lor (byteVal b7)
        (Z.lor (Z.shiftl (byteVal b6) 8)
           (Z.lor (Z.shiftl (byteVal b5) 16)
              (Z.lor (Z.shiftl (byteVal b4) 24)
                 (Z.lor (Z.shiftl (byteVal b3) 32)
                    (Z.lor (Z.shiftl (byteVal b2) 40)
                       (Z.lor (Z.shiftl (byteVal b1) 48)
                          (Z.shiftl (byteVal b0) 56)))))))
  | _ => 0
  end.

(** [EncodeKey] *)
Definition EncodeKey (fields : Item) : list byte := Address fields.

(** [DecodeKey] *)
Definition DecodeKey (key : list byte) : Item :=
  {| Address := key; Data := []; StoreTimestamp := 0; BinID := 0 |}.

(** [EncodeValue]: sixteen bytes of header, then the data. *)
Definition EncodeValue (fields : Item) : list byte :=
  let b := PutUint64 (BinID fields) ++ PutUint64 (toUint64 (StoreTimestamp fields)) in
  b ++ Data fields.

(** [DecodeValue].  The slice expressions [value[8:16]] and [value[16:]]
    are meant for a value of sixteen bytes or more; the model gives no
    result for a shorter one. *)
Definition DecodeValue (value : list byte) : option Item :=
  if (length value <? 16)%nat then None
  else Some {| Address := [];
               Data := drop 16 value;
               StoreTimestamp := wrapInt (Uint64 (take 8 (drop 8 value)));
               BinID := Uint64 (take 8 value) |}.

(** What the Go types of the fields of an item allow: [BinID] is a
    [uint64], [StoreTimestamp] an [int64]. *)
Definition wellTyped (fields : Item) : Prop :=
  0 <= BinID fields < 2 ^ 64 /\ - 2 ^ 63 <= StoreTimestamp fields < 2 ^ 63.

End RetrievalIndex.

(** ** The options of the exporter and [newExporter] *)

Module ExporterOptions.
Import Exporter.

(** What the [updater] field of an [exporter] can hold besides [nil]:
    the [noopUpdater] of the package or an updater of the caller. *)
Inductive ProgressUpdater : Type :=
| noopUpdater
| clientUpdater (id : nat).

(** The fields of [exporter] that the options set; [retrievalIndex] and
    [closer] come from [getRetrievalIndex], that is, from the environment. *)
Record exporter : Type := {
  dstFile : string;
  updater : option ProgressUpdater
}.

Definition Option : Type := exporter -> exporter.

Definition WithDestinationFilename (fname : string) : Option :=
  fun e => {| dstFile := fname; updater := updater e |}.

Definition WithProgressUpdater (upd : option ProgressUpdater) : Option :=
  fun e => {| dstFile := dstFile e; updater := upd |}.

Definition defaultOpts (e : exporter) : exporter :=
  let e := if String.eqb (dstFile e) ""
           then {| dstFile := DefaultExportFilename; updater := updater e |}
           else e in
  match updater e with
  | None => {| dstFile := dstFile e; updater := Some noopUpdater |}
  | Some _ => e
  end.

(** [newExporter(src, opts...)]; the source directory is opened last. *)
Definition newExporter (env : Env) (opts : list Option) : result exporter :=
  let e := fold_left (fun e opt => opt e) opts {| dstFile := ""; updater := None |} in
  let e := defaultOpts e in
  match openErr env with
  | Some err => Err err
  | None => Ok e
  end.

(** One call of [Export]: the file [os.Create] has made, if it got that
    far, and what [export] did and returned. *)
Record ExportRun : Type := {
  created : option string;
  outcome : State * result unit
}.

(** [Export(src, opts...)] with its options. *)
Definition ExportWith (env : Env) (opts : list Option) : ExportRun :=
  match newExporter env opts with
  | Err err =>
      {| created := None;
         outcome := (initState, Err ("Invalid source directory err:" +:+ err)) |}
  | Ok e =>
      {| created := match countErr env, createErr env with
                    | None, None => Some (dstFile e)
                    | _, _ => None
                    end;
         outcome := export env |}
  end.

(** The [RunE] of the [export-db] command, the progress printer left
    aside: the message printed on success, or the error. *)
Definition exportDB (env : Env) (dstFilename : string)
    (upd : ProgressUpdater) : ExportRun * result string :=
  let run := ExportWith env [WithDestinationFilename dstFilename;
                             WithProgressUpdater (Some upd)] in
  match snd (outcome run) with
  | Err err => (run, Err err)
  | Ok _ => (run, Ok ("Exported database to " +:+ dstFilename))
  end.

End ExporterOptions.

(** ** The options of the repairer and [newWithOptions] *)

Module RepairOptions.

(** The stores a [Repairer] can be given: [cmdfile.NewAPIStore(host,
    port, useSSL)] or, in the tests, a storer. *)
Inductive PutGetter : Type :=
| APIStore (host : string) (port : Z) (useSSL : bool)
| MockStore (id : nat).

Inductive Logger : Type :=
| discardLogger               (* logging.New(ioutil.Discard, 0) *)
| clientLogger (id : nat).

Inductive ProgressUpdater : Type :=
| noopUpdater
| clientUpdater (id : nat).

(** [storage.ModePut], the two values used. *)
Inductive ModePut : Type :=
| ModePutUpload
| ModePutUploadPin.

(** [loadsave.New(store, mode, encrypted)] *)
Record LoadSaver : Type := {
  lsStore : option PutGetter;
  lsMode : ModePut;
  lsEncrypted : bool
}.

Record Repairer : Type := {
  store : option PutGetter;
  ls : option LoadSaver;
  logger : option Logger;
  encrypt : bool;
  pin : bool;
  updater : option ProgressUpdater
}.

Definition Option : Type := Repairer -> Repairer.

Definition WithAPIStore (host : string) (port : Z) (useSSL : bool) : Option :=
  fun c => {| store := Some (APIStore host port useSSL); ls := ls c;
              logger := logger c; encrypt := encrypt c; pin := pin c;
              updater := updater c |}.

(** Of [export_test.go]. *)
Definition WithMockStore (st : option PutGetter) : Option :=
  fun c => {| store := st; ls := ls c; logger := logger c;
              encrypt := encrypt c; pin := pin c; updater := updater c |}.

Definition WithLogger (l : option Logger) : Option :=
  fun c => {| store := store c; ls := ls c; logger := l;
              encrypt := encrypt c; pin := pin c; updater := updater c |}.

Definition WithEncryption (val : bool) : Option :=
  fun c => {| store := store c; ls := ls c; logger := logger c;
              encrypt := val; pin := pin c; updater := updater c |}.

Definition WithPin (val : bool) : Option :=
  fun c => {| store := store c; ls := ls c; logger := logger c;
              encrypt := encrypt c; pin := val; updater := updater c |}.

Definition WithProgressUpdater (upd : option ProgressUpdater) : Option :=
  fun c => {| store := store c; ls := ls c; logger := logger c;
              encrypt := encrypt c; pin := pin c; updater := upd |}.

Definition defaultOpts (c : Repairer) : Repairer :=
  {| store := match store c with
              | None => Some (APIStore "127.0.0.1" 1633 false)
              | Some st => Some st
              end;
     ls := ls c;
     logger := match logger c with
               | None => Some discardLogger
               | Some l => Some l
               end;
     encrypt := encrypt c;
     pin := pin c;
     updater := match updater c with
                | None => Some noopUpdater
                | Some u => Some u
                end |}.

Definition newWithOptions (opts : list Option) : Repairer :=
  let r := fold_left (fun r opt => opt r) opts
             {| store := None; ls := None; logger := None;
                encrypt := false; pin := false; updater := None |} in
  let r := defaultOpts r in
  let mode := if pin r then ModePutUploadPin else ModePutUpload in
  {| store := store r;
     ls := Some {| lsStore := store r; lsMode := mode; lsEncrypted := encrypt r |};
     logger := logger r; encrypt := encrypt r; pin := pin r;
     updater := updater r |}.

(** The flag variables of the [file] and [directory] commands. *)
Record Flags : Type := {
  flagHost : string;
  flagPort : Z;
  flagSSL : bool;
  flagEncrypted : bool;
  flagPin : bool
}.

(** The options the [RunE] of both commands passes to [FileRepair] and
    [DirectoryRepair]. *)
Definition commandOptions (f : Flags) (l : option Logger) (cmd : nat) : list Option :=
  [WithAPIStore (flagHost f) (flagPort f) (flagSSL f);
   WithLogger l;
   WithEncryption (flagEncrypted f);
   WithProgressUpdater (Some (clientUpdater cmd))].

End RepairOptions.

(** ** The checks of the exporter's tests: [exporter_test.go] *)

Module ExporterTest.
Import Exporter.

(** [checkUpdater.Update(done, total)]: the new value of [prev], or the
    message of the [t.Fatal] that ends the test. *)
Definition checkUpdate (prev : Z) (u : Z * Z) : result Z :=
  let (done, total) := u in
  if prev >? done then Err "update arrive with older progress"
  else if done >? total then Err "incorrect update"
  else Ok done.

(** A [checkUpdater] that starts at [prev] and receives the calls of a
    progress log in order. *)
Fixpoint checkUpdater (prev : Z) (log : UpdateLog) : result Z :=
  match log with
  | [] => Ok prev
  | u :: rest =>
      let? prev' := checkUpdate prev u in
      checkUpdater prev' rest
  end.

(** [bytes.Equal] *)
Fixpoint bytesEqual (a b : list byte) : bool :=
  match a, b with
  | [], [] => true
  | x :: a', y :: b' => Byte.eqb x y && bytesEqual a' b'
  | _, _ => false
  end.

(** [chunkBuf] after [limitRd.Read(chunkBuf)]: a buffer of [size] zero
    bytes over which the bytes of the entry, at most [size] of them,
    have been read. *)
Definition readChunkBuf (size : nat) (data : list byte) : list byte :=
  take size data ++ repeat x00 (size - List.length data).

(** [verifyTar]: the entries [tr.Next()] yields are checked in turn
    against the chunks of [chunkMap], keyed by the hexadecimal form of
    their address; [Err] carries the message of [t.Fatal], the sizes that
    [t.Fatalf] formats into it left out. *)
Fixpoint verifyTar (entries : list ArchiveEntry) (chunkMap : gmap string (list byte))
    : result unit :=
  match entries with
  | [] => Ok tt
  | en :: rest =>
      if String.eqb (Name (hdr en)) ExportVersionFilename then
        if negb (Size (hdr en) =? Z.of_nat (String.length CurrentExportVersion))
        then Err "invalid header size for version entry"
        else verifyTar rest chunkMap
      else
        match chunkMap !! Name (hdr en) with
        | None => Err ("chunk " +:+ Name (hdr en) +:+ " not found")
        | Some data =>
            if negb (Size (hdr en) =? Z.of_nat (List.length data))
            then Err "invalid chunksize"
            else
              let chunkBuf := readChunkBuf (Z.to_nat (Size (hdr en))) (payload en) in
              if negb (bytesEqual data chunkBuf) then Err "invalid data bytes"
              else verifyTar rest chunkMap
        end
  end.

(** An entry whose header is in the archive with the first [k] bytes of
    its data, all of them at most. *)
Definition cutShort (k : nat) (en : ArchiveEntry) : ArchiveEntry :=
  {| hdr := hdr en; payload := take k (payload en) |}.

(** The map [createTestStore] returns for the chunks it has put in the
    index: [chunkMap[c.Address().String()] = c] for each in turn. *)
Definition chunkMapOf (chunks : list Item) : gmap string (list byte) :=
  fold_left (fun m c => <[EncodeToString (Address c) := Data c]> m) chunks ∅.

End ExporterTest.

(** ** The progress printer of [export-db]: [percentUpdater] *)

Module Progress.

(** [percentUpdater]; the mutex makes each read of the pair and each
    [Update] atomic. *)
Record percentUpdater : Type := {
  curr : Z;
  total : Z
}.

(** [&percentUpdater{}] *)
Definition newUpdater : percentUpdater := {| curr := 0; total := 0 |}.

(** [p.Update(current, total)] *)
Definition Update (current total : Z) (p : percentUpdater) : percentUpdater :=
  {| curr := current; total := total |}.

(** [curr*100/total] on [int]: the product wraps, the quotient is
    truncated towards zero. *)
Definition percent (p : percentUpdater) : Z :=
  wrapInt (Z.quot (wrapInt (curr p * 100)) (total p)).

(** One pass of the loop of [start]: the pair the pass reads, and
    whether the select statement at its end, if the pass gets there,
    finds the context done. *)
Record Pass : Type := {
  seen : percentUpdater;
  ctxDone : bool
}.

(** The task [start] launches, over the passes it makes: the percentages
    it prints, oldest first, and whether it has returned. *)
Fixpoint start (complete : bool) (passes : list Pass) : list Z * bool :=
  match passes with
  | [] => ([], false)
  | p :: rest =>
      let printed := if total (seen p) =? 0 then [] else [percent (seen p)] in
      if complete then (printed, true)
      else if negb (total (seen p) =? 0) && (curr (seen p) =? total (seen p))
      then (printed, true)
      else let (more, exited) := start (ctxDone p) rest in (printed ++ more, exited)
  end.

(** The updater after the first [k] calls of a progress log. *)
Definition seenAfter (log : Exporter.UpdateLog) (k : nat) : percentUpdater :=
  fold_left (fun p u => Update (fst u) (snd u) p) (take k log) newUpdater.

(** The printer of one [export-db] run: pass [i] takes place after
    [fst obs_i] calls of the export to the updater. *)
Definition printer (log : Exporter.UpdateLog) (obs : list (nat * bool)) : list Z * bool :=
  start false (map (fun o => {| seen := seenAfter log (fst o); ctxDone := snd o |}) obs).

(** Two reads of the updater during one export, in order: the total is
    zero until the first call, the same from then on, and the count does
    not go down. *)
Definition ahead (p q : percentUpdater) : Prop :=
  total p = 0 \/ total q = total p /\ curr p <= curr q.

(** A read of the updater during an export of [n] records. *)
Definition inExport (n : Z) (p : percentUpdater) : Prop :=
  p = newUpdater \/ total p = n /\ 0 <= curr p <= n.

End Progress.

(** ** More on the directory migration *)

Module Directory.
Import Repair.




(** A scheduler that cancels nothing: the calling task runs whenever it
    is not waiting in the select statement; there, a communication that
    is ready is taken, and the walk task runs otherwise. *)
Definition next (s : DState) : Choice :=
  match mainPC s with
  | MSelect =>
      match walkPC s with
      | WSend _ _ => SelFiles
      | WSendErr _ | WCloseFiles | WExit => SelErr
      | _ => RunWalk
      end
  | _ => RunMain
  end.

(** The choices [next] makes from [s] until the call has returned, at
    most [n] of them. *)
Fixpoint finish (w : World) (d : Dir) (n : nat) (s : DState) : list Choice :=
  match n with
  | O => []
  | S n' =>
      match returned s with
      | Some _ => []
      | None => next s :: finish w d n' (step w d s (next s))
      end
  end.


(** An error that was received from the walk task is what the call has
    returned, and the manifest was not stored. *)
Definition errorDelivered (s : DState) : Prop :=
  match sentErrs (trace (fx s)) with
  | [] => True
  | err :: _ =>
      mainPC s = MReturn ZeroAddress (Some err) /\
      countEv isStore (trace (fx s)) = 0%nat
  end.

(** The paths of the manifest under construction: the root path and the
    paths of the entries received. *)
Definition manifestPaths (s : DState) : Prop :=
  forall p, is_Some (man (fx s) !! p) ->
            p = RootPath \/ In p (map filepath (sentFiles (trace (fx s)))).

(** The effects of a complete [FileRepair] of [oldEntry], in order. *)
Definition fileRepairEffects (oldEntry : fileEntry) : list Event :=
  [ EvUpdate (updMsg oldEntry);
    EvAdd RootPath
      (NewEntry ZeroAddress
         (<[WebsiteIndexDocumentSuffixKey := Filename (mtdt oldEntry)]> ∅));
    EvAdd (Filename (mtdt oldEntry)) (fileManifestEntry oldEntry);
    EvStore ].

End Directory.

(** ** More worked environments *)

Module MoreExporterExamples.
Import Exporter ExporterExamples.

(** A record of the retrieval index. *)
Definition row : Item :=
  {| Address := [x0a; xbc]; Data := [x68; x69];
     StoreTimestamp := 1614556800; BinID := 1 |}.

(** A stored value: sixteen bytes of header and one of data. *)
Definition storedValue : list byte :=
  [x00; x00; x00; x00; x00; x00; x00; x07;
   xff; xff; xff; xff; xff; xff; xff; xfe; x2a].

(** The chunks of the index of two records, in the order they were put. *)
Definition putOrder : list Item := rev twoRows.

(** The archive file fails when the data of the second record is
    written, after two of its three bytes. *)
Definition diskFull : nat -> option error :=
  fun i => if (i =? 5)%nat then Some "no space left on device" else None.

Definition diskFullEnv : Env :=
  {| rows := twoRows; openErr := None; countErr := None; createErr := None;
     iterateErr := quiet; tarErr := diskFull; tarPartial := fun _ => 2%nat |}.

(** The printer looks before the export starts, after each of its three
    calls to the updater, and once more. *)
Definition looks : list (nat * bool) :=
  [(0%nat, false); (1%nat, false); (2%nat, false); (3%nat, false); (3%nat, false)].

(** Passes of a printer that is cancelled while the total is still zero. *)
Definition idlePass (done : bool) : Progress.Pass :=
  {| Progress.seen := Progress.newUpdater; Progress.ctxDone := done |}.

End MoreExporterExamples.

Module MoreExamples.
Import Repair Examples.


(** The context is cancelled, and the cancellation taken, while the walk
    task waits to send the only entry. *)
Definition abandonSchedule : list Choice :=
  toSelect ++ [RunWalk; RunWalk; RunWalk; Cancel; SelDone].

(** The one-file directory as [getOldDirectoryEntry] loads it. *)
Definition dirLoadedOne : Dir :=
  {| node := oneFileNode;
     rootNode := {| nodeEntry := []; nodeMetadata := dirRootMetadata |} |}.

(** A store whose blob at [at32 x01] has 5000 bytes. *)
Definition hugeEntry : list byte := repeat x00 5000.
Definition hugeWorld : World := world [(at32 x01, hugeEntry)] noNode.

End MoreExamples.

(** * Properties *)

(** ** Machine integers and hexadecimal encoding *)

Lemma wrapInt_small z : - 2 ^ 63 <= z <= maxInt -> wrapInt z = z.
Proof.
  unfold wrapInt, maxInt. intros Hz.
  rewrite Z.mod_small by lia. lia.
Qed.

Lemma hexDigit_lower n : (n < 16)%N -> isLowerHex (hexDigit n) = true.
Proof.
  intros Hn.
  assert (Hc : (N.to_nat n < 16)%nat) by lia.
  unfold hexDigit. generalize dependent (N.to_nat n). clear Hn.
  intros k Hk.
  do 16 (destruct k as [|k]; [reflexivity|]).
  lia.
Qed.

Lemma byte_to_N_bound (v : byte) : (Byte.to_N v < 256)%N.
Proof. pose proof (Byte.to_N_bounded v). lia. Qed.

Lemma EncodeToString_lower src : allChars isLowerHex (EncodeToString src) = true.
Proof.
  induction src as [|v rest IH]; [reflexivity|].
  cbn [EncodeToString allChars].
  rewrite IH, !andb_true_r.
  pose proof (byte_to_N_bound v) as Hv.
  rewrite !hexDigit_lower; [reflexivity| |].
  - change 15%N with (N.ones 4). rewrite N.land_ones.
    apply N.mod_upper_bound. discriminate.
  - rewrite N.shiftr_div_pow2.
    apply N.Div0.div_lt_upper_bound. exact Hv.
Qed.

Lemma EncodeToString_length src :
  String.length (EncodeToString src) = (2 * List.length src)%nat.
Proof.
  induction src as [|v rest IH]; [reflexivity|].
  cbn [EncodeToString String.length List.length]. rewrite IH. lia.
Qed.

(** ** The export engine *)

Module ExporterSpec.
Import Exporter.

Ltac unfold_ops :=
  unfold exportItem, WriteHeader, Write, Update, modify, check, bind, ret, fail,
    setWriter, setDoneCount, remaining, flush in *; cbn [tw doneCount updates
    twClosed dbClosed written curr ops hdr payload Size Name Mode fst snd] in *.

(** One run of the function literal: either it fails and has told the
    progress sink nothing, or it has appended the entry of the row, left
    the writer between entries and reported the incremented count. *)
Lemma exportItem_spec env total item s :
  settled s ->
  match exportItem env total item s with
  | (s', Ok stop) =>
      stop = false /\
      flush (tw s') = flush (tw s) ++ [chunkEntry item] /\
      settled s' /\
      doneCount s' = wrapInt (doneCount s + 1) /\
      updates s' = updates s ++ [(wrapInt (doneCount s + 1), total)]
  | (s', Err _) =>
      doneCount s' = doneCount s /\ updates s' = updates s
  end.
Proof.
  unfold settled. intros Hs. destruct s as [[wr cu op] dc up tc bc].
  unfold_ops.
  destruct (tarErr env op) as [e1|];
    [destruct (tarPartial env op <? blockSize)%nat; done|].
  replace (0 <? match cu with
                | Some e => Size (hdr e) - Z.of_nat (length (payload e))
                | None => 0
                end) with false by (symmetry; apply Z.ltb_ge; lia).
  cbn [tw doneCount updates twClosed dbClosed written curr ops hdr payload Size].
  destruct (tarErr env (S op)) as [e2|]; [done|].
  cbn [length]. rewrite Z.sub_0_r, Nat2Z.id, firstn_all.
  replace (Z.of_nat (length (Data item)) >? Z.of_nat (length (Data item)))
    with false by (symmetry; rewrite Z.gtb_ltb; apply Z.ltb_ge; lia).
  cbn [tw doneCount updates twClosed dbClosed written curr ops hdr payload Size].
  repeat split; try done.
  cbn [app length]. lia.
Qed.

(** The archive after a successful iteration: one entry per row, in the
    order of the rows. *)
Lemma Iterate_archive env total items : forall i s,
  settled s ->
  forall s', Iterate env (exportItem env total) i items s = (s', Ok tt) ->
  flush (tw s') = flush (tw s) ++ map chunkEntry items /\ settled s'.
Proof.
  induction items as [|item rest IH]; intros i s Hs s' Hrun.
  - cbn in Hrun. unfold check in Hrun.
    destruct (iterateErr env i); cbn in Hrun; [done|].
    injection Hrun as <-. rewrite app_nil_r. done.
  - cbn [Iterate] in Hrun. unfold bind at 1 in Hrun. unfold check in Hrun.
    destruct (iterateErr env i); cbn [fail ret] in Hrun; [done|].
    unfold bind at 1 in Hrun.
    pose proof (exportItem_spec env total item s Hs) as Hitem.
    destruct (exportItem env total item s) as [s1 [stop|e]]; [|done].
    destruct Hitem as (-> & Harch & Hs1 & _).
    destruct (IH (S i) s1 Hs1 s' Hrun) as [Hrest Hs'].
    split; [|done].
    rewrite Hrest, Harch, <- app_assoc. done.
Qed.

(** The progress reported by an iteration, successful or not: one call
    per row written, counting up from the count on entry. *)
Lemma Iterate_updates env total items : forall i s d,
  settled s ->
  doneCount s = Z.of_nat d ->
  Z.of_nat (d + length items) <= maxInt ->
  forall s' r, Iterate env (exportItem env total) i items s = (s', r) ->
  exists j, (j <= length items)%nat /\
            updates s' = updates s ++ updatesFrom total (S d) j /\
            (r = Ok tt -> j = length items).
Proof.
  induction items as [|item rest IH]; intros i s d Hs Hd Hfit s' r Hrun.
  - exists 0%nat. cbn in Hrun. unfold check in Hrun.
    destruct (iterateErr env i); cbn in Hrun; injection Hrun as <- <-;
      rewrite app_nil_r; done.
  - cbn [Iterate] in Hrun. unfold bind at 1 in Hrun. unfold check in Hrun.
    destruct (iterateErr env i); cbn [fail ret] in Hrun.
    { injection Hrun as <- <-. exists 0%nat. cbn. rewrite app_nil_r.
      split; [lia|]. split; done. }
    unfold bind at 1 in Hrun.
    pose proof (exportItem_spec env total item s Hs) as Hitem.
    destruct (exportItem env total item s) as [s1 [stop|e]].
    + destruct Hitem as (-> & _ & Hs1 & Hd1 & Hup1).
      cbn [length] in Hfit.
      rewrite Hd, wrapInt_small in Hd1, Hup1 by (unfold maxInt in *; lia).
      replace (Z.of_nat d + 1) with (Z.of_nat (S d)) in Hd1, Hup1 by lia.
      destruct (IH (S i) s1 (S d) Hs1 Hd1 ltac:(lia) s' r Hrun)
        as (j & Hj & Hup & Hok).
      exists (S j). cbn [length]. split; [lia|]. split; [|intros H; rewrite Hok; done].
      rewrite Hup, Hup1, <- app_assoc. done.
    + destruct Hitem as [_ Hup1]. injection Hrun as <- <-.
      exists 0%nat. cbn. rewrite app_nil_r. split; [lia|]. split; done.
Qed.

(** The body of [export] either fails before it has told the progress
    sink anything and before any row is written, or it reaches the
    iteration from [afterMarker]. *)
Lemma exportBody_cases env :
  (exists s e, exportBody env initState = (s, Err e) /\ updates s = []) \/
  (countErr env = None /\ createErr env = None /\
   exportBody env initState =
     Iterate env (exportItem env (Z.of_nat (length (rows env)))) 0 (rows env)
       (afterMarker (Z.of_nat (length (rows env))))).
Proof.
  unfold exportBody, Count, bind, check, modify, WriteHeader, Write, Update.
  destruct (countErr env) as [e|]; cbn.
  { left. eexists _, _. split; [reflexivity|done]. }
  destruct (createErr env) as [e|]; cbn.
  { left. eexists _, _. split; [reflexivity|done]. }
  destruct (tarErr env 0%nat) as [e|]; cbn.
  { left. destruct (Nat.leb _ _); eexists _, _; (split; [reflexivity|done]). }
  destruct (tarErr env 1%nat) as [e|]; cbn.
  { left. eexists _, _. split; [reflexivity|done]. }
  right. split; [reflexivity|]. split; reflexivity.
Qed.

Lemma afterMarker_settled total : settled (afterMarker total).
Proof. reflexivity. Qed.

Lemma updatesFrom_fst total k n :
  map fst (updatesFrom total k n) = map Z.of_nat (seq k n).
Proof. unfold updatesFrom. rewrite map_map. reflexivity. Qed.

Lemma seq_increasing : forall n k, StronglySorted Z.lt (map Z.of_nat (seq k n)).
Proof.
  induction n as [|n IH]; intros k; cbn; constructor; [apply IH|].
  apply Forall_forall. intros y Hy. apply list_elem_of_In in Hy.
  apply in_map_iff in Hy as (d & <- & Hd). apply in_seq in Hd. lia.
Qed.

Lemma updatesFrom_bounds total j :
  Z.of_nat j <= total ->
  Forall (fun u => 0 <= fst u <= snd u /\ snd u = total) (updatesFrom total 0 (S j)).
Proof.
  intros Hj. apply Forall_forall. intros [d t] Hin. apply list_elem_of_In in Hin.
  apply in_map_iff in Hin as (k & [= <- <-] & Hk). apply in_seq in Hk.
  cbn. lia.
Qed.

Lemma updatesFrom_last total n :
  last (updatesFrom total 0 (S n)) = Some (Z.of_nat n, total).
Proof.
  unfold updatesFrom. rewrite seq_S, map_app. cbn. apply last_snoc.
Qed.

(** The shape of the progress log of any export. *)
Lemma export_progress_shape env :
  Z.of_nat (length (rows env)) <= maxInt ->
  progress env = [] \/
  exists j, (j <= length (rows env))%nat /\
            progress env = updatesFrom (Z.of_nat (length (rows env))) 0 (S j) /\
            (exportErr env = None -> j = length (rows env)).
Proof.
  intros Hfit. unfold progress, exportErr, export.
  destruct (exportBody_cases env) as [(s & e & -> & Hup)|(_ & _ & ->)].
  { left. exact Hup. }
  right.
  set (total := Z.of_nat (length (rows env))) in *.
  destruct (Iterate env (exportItem env total) 0 (rows env) (afterMarker total))
    as [s' r] eqn:Hrun.
  destruct (Iterate_updates env total (rows env) 0%nat (afterMarker total) 0%nat
              (afterMarker_settled total) eq_refl Hfit s' r Hrun)
    as (j & Hj & Hup & Hok).
  exists j. cbn [fst snd runDeferred updates]. split; [exact Hj|]. split.
  - rewrite Hup. reflexivity.
  - destruct r as [[]|e]; [intros _; apply Hok; reflexivity|discriminate].
Qed.

(** C3: a successful export produces the version-marker entry (named by
    the literal file name, holding the literal version string, sized by
    its byte length) followed by exactly one entry per index record in
    iteration order, each named by the lowercase hexadecimal encoding of
    the record's address, holding the record's data and sized by its exact
    length. *)
Theorem export_archive_layout env :
  exportErr env = None ->
  archive env = versionEntry :: map chunkEntry (rows env) /\
  hdr versionEntry =
    {| Name := ExportVersionFilename; Mode := 420;
       Size := Z.of_nat (length (list_byte_of_string CurrentExportVersion)) |} /\
  payload versionEntry = list_byte_of_string CurrentExportVersion /\
  Forall (fun item =>
            Name (hdr (chunkEntry item)) = EncodeToString (Address item) /\
            allChars isLowerHex (Name (hdr (chunkEntry item))) = true /\
            payload (chunkEntry item) = Data item /\
            Size (hdr (chunkEntry item)) = Z.of_nat (length (Data item)))
         (rows env).
Proof.
  intros Hok. split; [|split; [reflexivity|split; [reflexivity|]]].
  - unfold archive, exportErr, export in *.
    destruct (exportBody_cases env) as [(s & e & Hb & _)|(_ & _ & Hb)];
      rewrite Hb in *; [discriminate|].
    set (total := Z.of_nat (length (rows env))) in *.
    destruct (Iterate env (exportItem env total) 0 (rows env) (afterMarker total))
      as [s' r] eqn:Hrun.
    cbn [fst snd runDeferred tw] in *.
    destruct r as [[]|e]; [|discriminate].
    destruct (Iterate_archive env total (rows env) 0%nat (afterMarker total)
                (afterMarker_settled total) s' Hrun) as [-> _].
    reflexivity.
  - apply Forall_forall. intros item _. cbn.
    rewrite EncodeToString_lower. done.
Qed.

(** C4: the progress sink first receives [Update(0, total)], then one
    call per record written with a count that grows by one each time,
    never decreases and never exceeds the total; after a successful
    export the last call carries the total as its count. *)
Theorem export_progress_monotone env :
  Z.of_nat (length (rows env)) <= maxInt ->
  let total := Z.of_nat (length (rows env)) in
  (progress env = [] \/
   exists j, (j <= length (rows env))%nat /\
             progress env = (0, total) :: updatesFrom total 1 j) /\
  StronglySorted Z.lt (map fst (progress env)) /\
  Forall (fun u => 0 <= fst u <= snd u /\ snd u = total) (progress env) /\
  (exportErr env = None ->
   progress env = (0, total) :: updatesFrom total 1 (length (rows env)) /\
   last (progress env) = Some (total, total)).
Proof.
  intros Hfit total.
  destruct (export_progress_shape env Hfit) as [Hnil|(j & Hj & Hup & Hok)].
  - rewrite Hnil. split; [left; done|]. split; [constructor|]. split; [constructor|].
    intros Hsucc. exfalso.
    unfold progress, exportErr, export in *.
    destruct (exportBody_cases env) as [(s & e & Hb & _)|(_ & _ & Hb)];
      rewrite Hb in *; [discriminate|].
    destruct (Iterate env _ 0 (rows env) (afterMarker _)) as [s' r] eqn:Hrun.
    destruct (Iterate_updates env _ (rows env) 0%nat (afterMarker _) 0%nat
                (afterMarker_settled _) eq_refl Hfit s' r Hrun)
      as (j & _ & Hup & _).
    cbn [fst runDeferred updates] in Hnil. rewrite Hup in Hnil. discriminate.
  - fold total in Hup. rewrite Hup.
    split; [right; exists j; done|].
    split; [rewrite updatesFrom_fst; apply seq_increasing|].
    split; [apply updatesFrom_bounds; unfold total; lia|].
    intros Hsucc. rewrite (Hok Hsucc). split; [reflexivity|].
    apply updatesFrom_last.
Qed.

(** C9: when the index holds no record and no collaborator fails, the
    export succeeds, the archive holds the version marker alone and the
    progress sink is called once, with [Update(0, 0)]. *)
Theorem export_empty_index env :
  rows env = [] ->
  countErr env = None ->
  createErr env = None ->
  tarErr env 0%nat = None ->
  tarErr env 1%nat = None ->
  iterateErr env 0%nat = None ->
  exportErr env = None /\
  archive env = [versionEntry] /\
  progress env = [(0, 0)].
Proof.
  intros Hrows Hcount Hcreate Ht0 Ht1 Hit.
  unfold exportErr, archive, progress, export, exportBody, Count, bind, check,
    modify, WriteHeader, Write.
  rewrite Hcount, Hcreate. cbn. rewrite Ht0. cbn. rewrite Ht1. cbn.
  rewrite Hrows. cbn. unfold check. rewrite Hit. cbn. done.
Qed.

End ExporterSpec.

(** ** The migration orchestrator *)

Module RepairSpec.
Import Repair.

(** *** Reading the log one event at a time *)

Lemma updatesOf_snoc tr ev :
  updatesOf (tr ++ [ev]) =
  updatesOf tr ++ match ev with EvUpdate msg => [msg] | _ => [] end.
Proof. unfold updatesOf. rewrite omap_app. destruct ev; reflexivity. Qed.

Lemma addsOf_snoc tr ev :
  addsOf (tr ++ [ev]) =
  addsOf tr ++ match ev with EvAdd p en => [(p, en)] | _ => [] end.
Proof. unfold addsOf. rewrite omap_app. destruct ev; reflexivity. Qed.

Lemma sentFiles_snoc tr ev :
  sentFiles (tr ++ [ev]) =
  sentFiles tr ++ match ev with EvSendFile f => [f] | _ => [] end.
Proof. unfold sentFiles. rewrite omap_app. destruct ev; reflexivity. Qed.

Lemma sentErrs_snoc tr ev :
  sentErrs (tr ++ [ev]) =
  sentErrs tr ++ match ev with EvSendErr err => [err] | _ => [] end.
Proof. unfold sentErrs. rewrite omap_app. destruct ev; reflexivity. Qed.

Lemma countEv_snoc p tr ev :
  countEv p (tr ++ [ev]) = (countEv p tr + if p ev then 1 else 0)%nat.
Proof.
  unfold countEv. rewrite List.filter_app, List.length_app. cbn.
  destruct (p ev); reflexivity.
Qed.

Create Rewrite HintDb log.
#[local] Hint Rewrite updatesOf_snoc addsOf_snoc sentFiles_snoc sentErrs_snoc
  countEv_snoc : log.

(** Simplify the readings of a log that was extended by known events. *)
Ltac read_log :=
  autorewrite with log in *;
  cbn [isStore isGo isCloseErrC isCloseFilesC isCtxDone isCancel isAdd] in *;
  rewrite ?app_nil_r, ?Nat.add_0_r in *.

(** *** The walk *)

Lemma walkFn_leaf w n v f :
  walkFn w n v = Ok (Some f) -> isLeaf v = true /\ entryOfLeaf w n f v.
Proof.
  unfold walkFn, isLeaf, entryOfLeaf.
  destruct (vErr v); [discriminate|].
  destruct (vIsDir v); [discriminate|].
  destruct (LookupNode n (vPath v)) as [fnode|]; [|discriminate]. cbn.
  destruct (getOldFileEntry w (nodeEntry fnode)) as [old|] eqn:Hold; [|discriminate].
  cbn. intros [= <-]. cbn. split; [reflexivity|]. split; [reflexivity|].
  exists fnode, old. done.
Qed.

Lemma walkFn_dir w n v : walkFn w n v = Ok None -> isLeaf v = false.
Proof.
  unfold walkFn, isLeaf.
  destruct (vErr v); [discriminate|].
  destruct (vIsDir v); [reflexivity|].
  destruct (LookupNode n (vPath v)) as [fnode|]; [|discriminate]. cbn.
  destruct (getOldFileEntry w (nodeEntry fnode)); discriminate.
Qed.

(** When [Walk] returns no error, it has sent one entry per leaf of the
    trie, in visiting order. *)
Lemma walkRun_complete w n vs :
  snd (walkRun w n vs) = None ->
  Forall2 (entryOfLeaf w n) (fst (walkRun w n vs)) (List.filter isLeaf vs).
Proof.
  induction vs as [|v rest IH]; cbn [walkRun List.filter]; intros Hres.
  - constructor.
  - destruct (walkFn w n v) as [[f|]|err] eqn:Hv.
    + apply walkFn_leaf in Hv as [-> Hf].
      destruct (walkRun w n rest) as [fs r]. cbn in *.
      constructor; [exact Hf|]. apply IH. exact Hres.
    + rewrite (walkFn_dir _ _ _ Hv). apply IH. exact Hres.
    + discriminate.
Qed.

(** *** Invariants of one directory migration *)

Section Directory.

Variable w : World.
Variable d : Dir.

Abbreviation log s := (trace (fx s)).

Lemma reachable_ind_step (P : DState -> Prop) :
  P (spawned d) ->
  (forall s c, reachable w d s -> P s -> P (step w d s c)) ->
  forall s, reachable w d s -> P s.
Proof.
  intros Hinit Hstep s [sched ->].
  induction sched as [|c sched IH] using rev_ind; [exact Hinit|].
  rewrite fold_left_app. cbn. apply Hstep; [eexists; reflexivity|exact IH].
Qed.

(** Unfold one step down to the records it builds. *)
Ltac unfold_step :=
  unfold step, stepMain, stepWalk, selectFiles, selectErr, selectDone, ctxErrOf,
    NewDefaultManifest, AddM, StoreM, Add, Store, lift, gets, modify, check,
    bind, ret, fail, record, emit, setMan, setMain, setWalk, setErr, setFx,
    closeErrC, closeFilesC, cancel in *;
  cbn [mainPC walkPC err fx errClosed filesClosed cancelled man trace fst snd] in *.

(** Case analysis on whatever the step still inspects. *)
Ltac break_step :=
  repeat (unfold_step;
          match goal with
          | |- context [match ?x with _ => _ end] =>
              lazymatch x with
              | context [match _ with _ => _ end] => fail
              | _ => first [is_var x; destruct x | destruct x eqn:?]
              end
          end);
  unfold_step.

Lemma walkProgress_step s c : walkProgress w d s -> walkProgress w d (step w d s c).
Proof.
  destruct s as [mp wp er [m tr] ec fc cn]. unfold walkProgress.
  destruct c; unfold_step; intros H.
  - (* RunMain *)
    destruct mp; break_step; read_log; exact H.
  - (* RunWalk *)
    destruct wp as [|[|v rest]| | | | | | |]; try exact H; unfold_step.
    + cbn [walkRun] in H. destruct H as [H1 H2].
      rewrite app_nil_r in H1. done.
    + cbn [walkRun] in H.
      destruct (walkFn w (node d) v) as [[f|]|e0]; unfold_step.
      * destruct (walkRun w (node d) rest) as [fs r]. exact H.
      * exact H.
      * destruct H as [H1 H2]. rewrite app_nil_r in H1. done.
    + apply H.
    + destruct er; unfold_step; apply H.
    + read_log. exact H.
    + read_log. exact H.
  - (* SelFiles *)
    destruct mp; try exact H.
    destruct wp; break_step; read_log; try exact H.
    rewrite <- app_assoc. exact H.
  - (* SelErr *)
    destruct mp; try exact H.
    destruct wp; break_step; read_log; try exact H.
  - (* SelDone *)
    destruct mp; break_step; read_log; exact H.
  - (* Cancel *)
    destruct cn; unfold_step; read_log; exact H.
Qed.

Ltac use_log_eqs :=
  repeat match goal with
         | H : updatesOf ?t = _ |- context [updatesOf ?t] => rewrite H
         | H : addsOf ?t = _ |- context [addsOf ?t] => rewrite H
         | H : sentFiles ?t = _ |- context [sentFiles ?t] => rewrite H
         | H : sentErrs ?t = _ |- context [sentErrs ?t] => rewrite H
         end.

Ltac finish :=
  read_log; cbn [length app] in *;
  repeat match goal with
         | H : _ /\ _ |- _ => destruct H
         end;
  subst; repeat split; use_log_eqs; try done; try lia; try congruence.

Lemma channels_step s c : channels s -> channels (step w d s c).
Proof.
  destruct s as [mp wp er [m tr] ec fc cn]. unfold channels.
  destruct c; unfold_step; intros H.
  - destruct mp; break_step; finish.
  - destruct wp as [|[|v rest]| | | | | | |]; break_step; finish.
  - destruct mp; try exact H. destruct wp; break_step; finish.
  - destruct mp; try exact H. destruct wp; break_step; finish.
    all: try (match goal with H : sentErrs _ = [] |- _ => rewrite H end; cbn; lia).
  - destruct mp; break_step; finish.
  - destruct cn; break_step; finish.
Qed.

Lemma inManifest_nil m : inManifest m [].
Proof. intros f []. Qed.

Lemma inManifest_insert (m : gmap string manifest_Entry) fs f :
  inManifest m fs ->
  m !! filepath f = None ->
  inManifest (<[filepath f := fileManifestEntry f]> m) (fs ++ [f]).
Proof.
  intros Hfs Hfresh g Hg. apply in_app_or in Hg as [Hg|[<-|[]]].
  - rewrite lookup_insert_ne; [apply Hfs; exact Hg|].
    intros Heq. rewrite Heq, (Hfs g Hg) in Hfresh. discriminate.
  - apply lookup_insert_eq.
Qed.

Ltac close_adds :=
  try first
    [ apply inManifest_nil
    | apply inManifest_insert; assumption
    | left; split; solve [assumption | reflexivity | congruence]
    | right; solve [assumption | reflexivity | congruence] ].

Lemma mainLog_step s c : mainLog d s -> mainLog d (step w d s c).
Proof.
  destruct s as [mp wp er [m tr] ec fc cn]. unfold mainLog.
  destruct c; unfold_step; intros (hs & Hup & H).
  - (* RunMain *)
    destruct mp as [| | | | |f| |ref [e|]].
    + break_step; exists hs; finish.
    + break_step; exists hs; finish; close_adds.
    + break_step; exists hs; finish.
    + break_step; exists hs; finish; close_adds.
    + exists hs. finish.
    + destruct H as (Hsent & Hadds & Hman).
      break_step; exists (hs ++ [f]); read_log; rewrite ?map_app, ?Hup, ?Hadds;
        cbn [map]; repeat split; try done; close_adds.
    + break_step; exists hs; finish; close_adds.
    + exists hs. finish.
    + exists hs. finish.
  - (* RunWalk *)
    exists hs.
    destruct wp as [|[|v rest]| | | | | | |]; break_step; read_log; done.
  - (* SelFiles *)
    destruct mp; try (exists hs; done).
    destruct wp; break_step; exists hs; finish; close_adds.
  - (* SelErr *)
    destruct mp; try (exists hs; done).
    destruct wp; break_step; exists hs; finish; close_adds.
  - (* SelDone *)
    destruct mp; try (exists hs; done).
    break_step; exists hs; finish; close_adds.
  - (* Cancel *)
    exists hs. destruct cn; break_step; read_log; done.
Qed.

Ltac close_returns :=
  intuition (try lia; try congruence;
             try match goal with
                 | H : saveManifest _ _ = _ |- _ => rewrite H; reflexivity
                 end).

Lemma returns_step s c : returns w s -> returns w (step w d s c).
Proof.
  destruct s as [mp wp er [m tr] ec fc cn]. unfold returns.
  destruct c; unfold_step; intros H.
  - destruct mp; break_step; finish; close_returns.
  - destruct wp as [|[|v rest]| | | | | | |]; break_step; finish; close_returns.
  - destruct mp; try exact H. destruct wp; break_step; finish; close_returns.
  - destruct mp; try exact H. destruct wp; break_step; finish; close_returns.
  - destruct mp; break_step; finish; close_returns.
  - destruct cn; break_step; finish; close_returns.
Qed.

(** The four invariants hold in every state a schedule leads to. *)
Lemma invariants s :
  reachable w d s ->
  walkProgress w d s /\ channels s /\ mainLog d s /\ returns w s.
Proof.
  revert s.
  apply (reachable_ind_step
           (fun s => walkProgress w d s /\ channels s /\ mainLog d s /\ returns w s)).
  - split; [|split; [|split]].
    + unfold walkProgress, script. cbn. done.
    + unfold channels. cbn. repeat split; try done. lia.
    + exists []. cbn. done.
    + unfold returns. cbn. done.
  - intros s' c _ (H1 & H2 & H3 & H4).
    auto using walkProgress_step, channels_step, mainLog_step, returns_step.
Qed.











End Directory.

Lemma DirectoryRepair_reachable w addr d sched :
  loadOldDirectory w addr = Ok d ->
  reachable w d (DirectoryRepair w addr sched).
Proof.
  intros Hload. unfold DirectoryRepair. rewrite Hload.
  exists sched. reflexivity.
Qed.


(** *** The directory migration *)

(** The [Add] calls of a migration: the calling task calls [Add] for the
    root path once, before it calls it for any received entry; the calls
    are the one for ["/"], carrying the zero reference and the metadata of
    the legacy root node, followed by one call per entry handled, in the
    order of delivery.  Whether the root path entry is then in the
    manifest is another matter, settled on a worked environment below. *)
Theorem root_entry_added_once_first w addr d sched :
  loadOldDirectory w addr = Ok d ->
  let s := DirectoryRepair w addr sched in
  let root := (RootPath, {| Reference := ZeroAddress;
                            Metadata := nodeMetadata (rootNode d) |}) in
  (addsOf (trace (fx s)) = [] /\ sentFiles (trace (fx s)) = [] \/
   exists hs,
     addsOf (trace (fx s)) = root :: map leafAdd hs /\
     (sentFiles (trace (fx s)) = hs \/
      exists f, sentFiles (trace (fx s)) = hs ++ [f])) /\
  (forall ref, returned s = Some (ref, None) ->
     addsOf (trace (fx s)) = root :: map leafAdd (sentFiles (trace (fx s)))).
Proof.
  intros Hload s root.
  destruct (invariants w d s (DirectoryRepair_reachable _ _ _ sched Hload))
    as (_ & _ & (hs & _ & Hmain) & _).
  unfold returned. change (rootAdd d) with root in Hmain.
  destruct (mainPC s) as [| | | | |f| |ref [e|]]; (split; [|try discriminate]).
  - left. tauto.
  - left. tauto.
  - left. tauto.
  - right. exists []. destruct Hmain as (Hs & -> & Ha). eauto.
  - right. exists hs. tauto.
  - right. exists hs. destruct Hmain as (Hs & Ha & _). eauto.
  - right. exists hs. tauto.
  - destruct Hmain as (Hs & [[Ha ->]|Ha]); [left|right; exists hs]; tauto.
  - right. exists hs. tauto.
  - intros ref' _. destruct Hmain as (-> & Ha & _). exact Ha.
Qed.


(** A migration that returns a reference has handled every entry of the
    walk: one notification and one manifest entry per entry sent. *)
Lemma success_handles_walk w addr d sched ref :
  loadOldDirectory w addr = Ok d ->
  let s := DirectoryRepair w addr sched in
  returned s = Some (ref, None) ->
  sentFiles (trace (fx s)) = fst (walkRun w (node d) (walkVisits (node d))) /\
  updatesOf (trace (fx s)) = map updMsg (sentFiles (trace (fx s))) /\
  inManifest (man (fx s)) (sentFiles (trace (fx s))) /\
  Store w (man (fx s)) = Ok ref.
Proof.
  intros Hload s Hret.
  destruct (invariants w d s (DirectoryRepair_reachable _ _ _ sched Hload))
    as (Hwalk & (_ & _ & _ & _ & Hpc) & (hs & Hup & Hmain) & Hreturns).
  unfold returned, returns, walkProgress in *.
  destruct (mainPC s) as [| | | | |f| |ref' [e|]]; try discriminate.
  injection Hret as ->.
  destruct Hmain as (Hsent & _ & Hman).
  destruct Hreturns as (_ & _ & _ & Hstore & Hnone & _).
  destruct (Hstore (Hnone eq_refl)) as [Hout Hclosed].
  rewrite Hsent. repeat split; try assumption.
  - rewrite <- Hsent.
    destruct (walkPC s); try tauto;
      destruct Hpc as (He & Hf & _); rewrite He, Hf in Hclosed;
      destruct Hclosed; discriminate.
  - destruct (Store w (man (fx s))); cbn in Hout; congruence.
Qed.

Lemma inManifest_migrated w n m fs vs :
  Forall2 (entryOfLeaf w n) fs vs ->
  inManifest m fs ->
  Forall (migrated w n m) vs.
Proof.
  induction 1 as [|f v fs vs Hfv Hall IH]; intros Hman; constructor.
  - destruct Hfv as (Hpath & fnode & old & Hlook & Hold & He & Hm).
    exists fnode, old. do 2 (split; [assumption|]).
    rewrite <- Hpath, (Hman f (or_introl eq_refl)).
    unfold fileManifestEntry. rewrite He, Hm. reflexivity.
  - apply IH. intros g Hg. apply Hman. right. exact Hg.
Qed.

(** When [Walk] reports no error, a successful migration has notified
    the progress sink once per leaf of the legacy tree, and its manifest
    holds every leaf path with the content reference, file name and MIME
    type of the legacy records. *)
Lemma successful_walk_migrates_every_leaf w addr d sched ref :
  loadOldDirectory w addr = Ok d ->
  snd (walkRun w (node d) (walkVisits (node d))) = None ->
  let s := DirectoryRepair w addr sched in
  returned s = Some (ref, None) ->
  length (updatesOf (trace (fx s))) = length (leaves (node d)) /\
  Forall (migrated w (node d) (man (fx s))) (leaves (node d)).
Proof.
  intros Hload Hwalk s Hret.
  destruct (success_handles_walk w addr d sched ref Hload Hret)
    as (Hsent & Hup & Hman & _).
  fold s in Hsent, Hup, Hman.
  pose proof (walkRun_complete w (node d) (walkVisits (node d)) Hwalk) as Hall.
  rewrite <- Hsent in Hall. fold (leaves (node d)) in Hall.
  split.
  - rewrite Hup, length_map. apply (Forall2_length _ _ _ Hall).
  - apply (inManifest_migrated _ _ _ _ _ Hall Hman).
Qed.

(** Once the calling task has returned, a walk task that is waiting to
    send waits for ever: it never reaches its deferred calls, and the
    channels stay open. *)
Lemma walk_blocked_after_return w d sched : forall s,
  (exists ref oe, mainPC s = MReturn ref oe) ->
  (exists f rest, walkPC s = WSend f rest) \/ (exists err, walkPC s = WSendErr err) ->
  let s' := fold_left (step w d) sched s in
  mainPC s' = mainPC s /\ walkPC s' = walkPC s /\
  errClosed s' = errClosed s /\ filesClosed s' = filesClosed s.
Proof.
  induction sched as [|c sched IH]; intros s Hmain Hwalk; [cbn; done|].
  cbn [fold_left].
  assert (Hstep : mainPC (step w d s c) = mainPC s /\
                  walkPC (step w d s c) = walkPC s /\
                  errClosed (step w d s c) = errClosed s /\
                  filesClosed (step w d s c) = filesClosed s).
  { destruct Hmain as (ref & oe & Hm).
    destruct s as [mp wp er [m tr] ec fc cn]. cbn in Hm. subst mp.
    destruct Hwalk as [(f & rest & Hw)|(e0 & Hw)]; cbn in Hw; subst wp;
      destruct c; cbn; try done; destruct cn; cbn; done. }
  destruct Hstep as (Hm & Hw & He & Hf).
  specialize (IH (step w d s c)). rewrite Hm, Hw, He, Hf in IH.
  apply IH; assumption.
Qed.

(** C10: when the lookup of the root path fails, the call returns the
    lookup error with the zero reference, the walk task is never started
    and nothing is added to any manifest. *)
Theorem missing_root_returns_before_walk w addr j read n err sched :
  joinerNew w addr = Ok j ->
  JoinReadAll j NewBuffer = Ok read ->
  nodeUnmarshalBinary w (buf read) = Ok n ->
  LookupNode n RootPath = Err err ->
  let s := DirectoryRepair w addr sched in
  returned s = Some (ZeroAddress, Some err) /\
  walkPC s = WNotStarted /\
  countEv isGo (trace (fx s)) = 0%nat /\
  addsOf (trace (fx s)) = [] /\
  trace (fx s) = [].
Proof.
  intros Hj Hread Hnode Hroot s. subst s.
  unfold DirectoryRepair, loadOldDirectory.
  rewrite Hj. cbn. rewrite Hread. cbn. rewrite Hnode. cbn. rewrite Hroot. cbn.
  done.
Qed.

(** *** Reading legacy records *)

Lemma JoinReadAll_size j : forall w w',
  JoinReadAll j w = Ok w' ->
  length (buf w') = (length (buf w) + joinerSize j)%nat /\
  total w' = (total w + joinerSize j)%nat /\
  limit w' = limit w.
Proof.
  induction j as [|[b|err] j IH]; intros w w' Hread; cbn in Hread.
  - injection Hread as <-. cbn. repeat split; lia.
  - unfold WriteTo in Hread.
    destruct (limit w) as [c|] eqn:Hlim;
      [destruct (c <? total w + length b)%nat; [discriminate|]|];
      cbn in Hread; apply IH in Hread as (Hb & Ht & Hl); cbn in *;
      rewrite length_app in Hb; repeat split; try lia; congruence.
  - discriminate.
Qed.

(** A read through the limiting writer succeeds only within the limit. *)
Lemma JoinReadAll_within_limit j : forall w w' c,
  JoinReadAll j w = Ok w' ->
  limit w = Some c ->
  (total w <= c)%nat ->
  (total w' <= c)%nat.
Proof.
  induction j as [|[b|err] j IH]; intros w w' c Hread Hlim Hle; cbn in Hread.
  - injection Hread as <-. exact Hle.
  - unfold WriteTo in Hread. rewrite Hlim in Hread.
    destruct (c <? total w + length b)%nat eqn:Hcmp; [discriminate|].
    apply Nat.ltb_ge in Hcmp. cbn in Hread.
    apply (IH _ _ c Hread); [reflexivity|exact Hcmp].
  - discriminate.
Qed.

(** A read through the limiting writer fails once the blob exceeds the
    limit. *)
Lemma JoinReadAll_overflow j : forall w c,
  limit w = Some c ->
  (total w <= c)%nat ->
  (forall err, ~ In (ReadFail err) j) ->
  (c < total w + joinerSize j)%nat ->
  JoinReadAll j w = Err ErrOverflow.
Proof.
  induction j as [|[b|err] j IH]; intros w c Hlim Hle Hno Hbig; cbn in *.
  - lia.
  - unfold WriteTo. rewrite Hlim.
    destruct (c <? total w + length b)%nat eqn:Hcmp; [reflexivity|].
    apply Nat.ltb_ge in Hcmp. cbn.
    apply (IH _ c); cbn; [reflexivity|exact Hcmp| |lia].
    intros err Hin. apply (Hno err). right. exact Hin.
  - exfalso. apply (Hno err). left. reflexivity.
Qed.

(** An entry record larger than [limitMetadataLength] is refused. *)
Lemma oversized_entry_is_refused w addr j :
  joinerNew w addr = Ok j ->
  (forall err, ~ In (ReadFail err) j) ->
  (limitMetadataLength < joinerSize j)%nat ->
  getOldFileEntry w addr = Err ErrOverflow.
Proof.
  intros Hj Hno Hbig. unfold getOldFileEntry. rewrite Hj. cbn.
  rewrite (JoinReadAll_overflow j _ limitMetadataLength); cbn; try done. lia.
Qed.

(** The limit of [getOldFileEntry] is on the read of the entry record:
    when the call succeeds, the blob at the given address has at most
    [limitMetadataLength] bytes.  The blob the entry's metadata reference
    leads to is read into a plain buffer. *)
Lemma getOldFileEntry_reads w addr f :
  getOldFileEntry w addr = Ok f ->
  exists j jm,
    joinerNew w addr = Ok j /\
    (joinerSize j <= limitMetadataLength)%nat /\
    joinerNew w (metadata (e f)) = Ok jm /\
    exists read,
      JoinReadAll jm NewBuffer = Ok read /\
      length (buf read) = joinerSize jm /\
      jsonUnmarshal w (buf read) = Ok (mtdt f).
Proof.
  unfold getOldFileEntry. intros H.
  destruct (joinerNew w addr) as [j|] eqn:Hj; [|discriminate]. cbn in H.
  destruct (JoinReadAll j _) as [read|] eqn:Hread; [|discriminate]. cbn in H.
  destruct (entryUnmarshalBinary w (buf read)) as [en|]; [|discriminate]. cbn in H.
  destruct (joinerNew w (metadata en)) as [jm|] eqn:Hjm; [|discriminate]. cbn in H.
  destruct (JoinReadAll jm NewBuffer) as [readm|] eqn:Hreadm; [|discriminate].
  cbn in H.
  destruct (jsonUnmarshal w (buf readm)) as [md|] eqn:Hmd; [|discriminate].
  injection H as <-. cbn.
  exists j, jm. split; [reflexivity|]. split.
  - pose proof (JoinReadAll_size _ _ _ Hread) as (_ & Ht & _).
    pose proof (JoinReadAll_within_limit _ _ _ limitMetadataLength Hread eq_refl
                  ltac:(cbn; lia)) as Hle.
    cbn in Ht. lia.
  - split; [exact Hjm|]. exists readm. split; [exact Hreadm|]. split; [|exact Hmd].
    apply JoinReadAll_size in Hreadm as (Hb & _). exact Hb.
Qed.

(** *** The single-file migration *)

Ltac unfold_file :=
  unfold FileRepair, orReturn, andThen, returning, lift, NewDefaultManifest,
    AddM, StoreM, Add, Store, gets, modify, check, bind, ret, fail, emit, setMan,
    noEffects in *;
  cbn [man trace fst snd] in *.

(** What a successful [getOldFileEntry] has read: the entry record is
    the blob at the given address, read through the limiting writer and
    decoded; the metadata is the blob at the entry's metadata reference,
    read and decoded as JSON. *)
Lemma getOldFileEntry_ok w addr old :
  getOldFileEntry w addr = Ok old ->
  exists j entryRead en jm metaRead md,
    joinerNew w addr = Ok j /\
    JoinReadAll j (NewLimitWriteCloser limitMetadataLength) = Ok entryRead /\
    entryUnmarshalBinary w (buf entryRead) = Ok en /\
    joinerNew w (metadata en) = Ok jm /\
    JoinReadAll jm NewBuffer = Ok metaRead /\
    jsonUnmarshal w (buf metaRead) = Ok md /\
    old = {| filepath := ""; e := en; mtdt := md |}.
Proof.
  unfold getOldFileEntry. intros H.
  destruct (joinerNew w addr) as [j|]; [|discriminate]. cbn in H.
  destruct (JoinReadAll j _) as [entryRead|] eqn:Hread; [|discriminate]. cbn in H.
  destruct (entryUnmarshalBinary w (buf entryRead)) as [en|] eqn:Hen; [|discriminate].
  cbn in H.
  destruct (joinerNew w (metadata en)) as [jm|] eqn:Hjm; [|discriminate]. cbn in H.
  destruct (JoinReadAll jm NewBuffer) as [metaRead|] eqn:Hmeta; [|discriminate].
  cbn in H.
  destruct (jsonUnmarshal w (buf metaRead)) as [md|] eqn:Hmd; [|discriminate].
  injection H as <-.
  exists j, entryRead, en, jm, metaRead, md. done.
Qed.

(** C2: a single-file migration that succeeds has read the entry record
    at the given address from the store and the metadata at the entry's
    metadata reference, and has built a manifest with exactly two entries:
    the root path entry, whose reference is the zero reference and whose
    index-document name is the file name of that metadata, and the entry
    keyed by that file name, which carries the content reference of the
    stored entry record unchanged and the file name and MIME type of the
    stored metadata.  The reference returned is the one [Store] gave for
    that manifest. *)
Theorem FileRepair_manifest w addr fx ref :
  FileRepair w addr = (fx, (ref, None)) ->
  exists j entryRead en jm metaRead md,
    joinerNew w addr = Ok j /\
    JoinReadAll j (NewLimitWriteCloser limitMetadataLength) = Ok entryRead /\
    entryUnmarshalBinary w (buf entryRead) = Ok en /\
    joinerNew w (metadata en) = Ok jm /\
    JoinReadAll jm NewBuffer = Ok metaRead /\
    jsonUnmarshal w (buf metaRead) = Ok md /\
    getOldFileEntry w addr = Ok {| filepath := ""; e := en; mtdt := md |} /\
    let name := Filename md in
    man fx =
      <[name := NewEntry (reference en)
                  (<[EntryMetadataFilenameKey := name]>
                     (<[EntryMetadataContentTypeKey := MimeType md]> ∅))]>
        (<[RootPath := NewEntry ZeroAddress
                         (<[WebsiteIndexDocumentSuffixKey := name]> ∅)]> ∅) /\
    (exists rootEntry,
       man fx !! RootPath = Some rootEntry /\
       Reference rootEntry = ZeroAddress /\
       Metadata rootEntry !! WebsiteIndexDocumentSuffixKey = Some name) /\
    (exists entry,
       man fx !! name = Some entry /\
       Reference entry = reference en /\
       Metadata entry !! EntryMetadataFilenameKey = Some name /\
       Metadata entry !! EntryMetadataContentTypeKey = Some (MimeType md)) /\
    (forall path, is_Some (man fx !! path) -> path = RootPath \/ path = name) /\
    name <> RootPath /\
    updatesOf (trace fx) = ["Updating reference for file " +:+ name] /\
    Store w (man fx) = Ok ref.
Proof.
  intros Hrun.
  assert (Hold : exists old, getOldFileEntry w addr = Ok old).
  { revert Hrun. unfold FileRepair, orReturn, lift.
    destruct (getOldFileEntry w addr) as [old|err]; [eauto|discriminate]. }
  destruct Hold as [old Hold].
  destruct (getOldFileEntry_ok w addr old Hold)
    as (j & entryRead & en & jm & metaRead & md & Hj & Hread & Hen & Hjm & Hmeta
        & Hmd & ->).
  exists j, entryRead, en, jm, metaRead, md.
  do 6 (split; [assumption|]). split; [exact Hold|].
  revert Hrun. unfold_file. rewrite Hold.
  destruct (newManifestErr w); cbn; [discriminate|].
  rewrite lookup_empty.
  destruct (persistErr w ∅ RootPath _); cbn; [discriminate|].
  destruct (decide (Filename md = RootPath)) as [Heq|Hne].
  { rewrite Heq, lookup_insert_eq. cbn. discriminate. }
  rewrite lookup_insert_ne by congruence. rewrite lookup_empty.
  destruct (persistErr w _ (Filename md) _); cbn; [discriminate|].
  destruct (saveManifest w _) as [ref'|] eqn:Hsave; cbn; [|discriminate].
  intros [= <- <-]. cbn [man trace]. cbn zeta.
  split; [reflexivity|].
  split; [|split; [|split; [|split; [|split]]]].
  - eexists. rewrite lookup_insert_ne by exact Hne. rewrite lookup_insert_eq.
    split; [reflexivity|]. cbn. split; [reflexivity|]. apply lookup_insert_eq.
  - eexists. rewrite lookup_insert_eq. split; [reflexivity|].
    unfold fileManifestEntry. cbn. split; [reflexivity|].
    split; [apply lookup_insert_eq|].
    rewrite lookup_insert_ne by discriminate. apply lookup_insert_eq.
  - intros path [en' Hen'].
    destruct (decide (path = Filename md)) as [->|Hp]; [right; reflexivity|].
    rewrite lookup_insert_ne in Hen' by congruence.
    destruct (decide (path = RootPath)) as [->|Hr]; [left; reflexivity|].
    rewrite lookup_insert_ne in Hen' by congruence.
    rewrite lookup_empty in Hen'. discriminate.
  - exact Hne.
  - reflexivity.
  - exact Hsave.
Qed.

(** *** Failures *)


End RepairSpec.

(** ** The properties on the worked environments *)

Module Scenarios.
Import Repair RepairSpec Examples.

(** C1 fails on the code.  The walk task assigns what [Walk] returned to
    the variable [err] of [getOldDirectoryEntry], which the calling task
    assigns as well; when the calling task's assignment falls between the
    walk task's assignment and its test, the error of the walk is lost.
    Here the only leaf of the legacy tree cannot be read, yet the call
    returns a manifest reference, having notified the progress sink of no
    file and stored a manifest without the leaf. *)
Theorem walk_error_can_be_lost :
  let s := DirectoryRepair brokenWorld (at32 xd0) raceSchedule in
  map vPath (leaves oneFileNode) = ["a.txt"] /\
  walkRun brokenWorld oneFileNode (walkVisits oneFileNode)
    = ([], Some "storage: not found") /\
  map kind (trace (fx s)) = ["go"; "closeErrC"; "closeFilesC"; "add"; "store"] /\
  returned s = Some (newManifestAddress, None) /\
  updatesOf (trace (fx s)) = [] /\
  man (fx s) !! "a.txt" = None.
Proof. vm_compute. repeat split. Qed.

(** C6 fails on the code.  The writer limited to [limitMetadataLength]
    receives the entry record; the metadata blob is read into a plain
    buffer.  Here the metadata blob has 4239 bytes, more than one chunk,
    and the migration reads and decodes all of it and succeeds. *)
Theorem metadata_read_is_not_capped :
  let blob := metadataJSON longName "text/plain" in
  length blob = 4239%nat /\
  (ChunkSize < length blob)%nat /\
  (exists old,
     getOldFileEntry bigWorld (at32 x01) = Ok old /\
     joinerNew bigWorld (metadata (e old)) = Ok (joinerOf blob) /\
     joinerSize (joinerOf blob) = length blob /\
     Filename (mtdt old) = longName) /\
  snd (FileRepair bigWorld (at32 x01)) = (newManifestAddress, None).
Proof.
  cbv zeta. split; [vm_compute; reflexivity|]. split; [vm_compute; lia|].
  split; [|vm_compute; reflexivity].
  eexists. split; [vm_compute; reflexivity|]. vm_compute. repeat split.
Qed.


(** C7 fails on the code, by the defect of C1.  The legacy directory has
    no file, and the store refuses the root path entry: [Add] fails.  The
    walk task, which has nothing to send, assigns the [nil] that [Walk]
    returned to [err] before the calling task tests it; the failure of
    [Add] is lost, and the call returns the reference of a manifest in
    which the root path entry was never added. *)
Theorem root_entry_can_be_lost :
  let s := DirectoryRepair rootRefusedWorld (at32 xd0) lostRootSchedule in
  loadOldDirectory rootRefusedWorld (at32 xd0) = Ok emptyDirLoaded /\
  Add rootRefusedWorld ∅ RootPath (rootManifestEntry emptyDirLoaded)
    = Err "storage: write failed" /\
  map kind (trace (fx s)) = ["go"; "add"; "closeErrC"; "closeFilesC"; "store"] /\
  addsOf (trace (fx s)) = [(RootPath, rootManifestEntry emptyDirLoaded)] /\
  returned s = Some (newManifestAddress, None) /\
  man (fx s) !! RootPath = None.
Proof. vm_compute. repeat split. Qed.


(** *** Instances of the theorems *)

Lemma FileRepair_manifest_witness :
  let fx := fst (FileRepair simpleWorld (at32 x01)) in
  FileRepair simpleWorld (at32 x01) = (fx, (newManifestAddress, None)) /\
  joinerNew simpleWorld (at32 x01) = Ok [ReadChunk (at32 x02 ++ at32 x03)] /\
  entryUnmarshalBinary simpleWorld (at32 x02 ++ at32 x03)
    = Ok {| reference := at32 x02; metadata := at32 x03 |} /\
  joinerNew simpleWorld (at32 x03)
    = Ok [ReadChunk (metadataJSON "simple.txt" "text/plain; charset=utf-8")] /\
  jsonUnmarshal simpleWorld (metadataJSON "simple.txt" "text/plain; charset=utf-8")
    = Ok {| MimeType := "text/plain; charset=utf-8"; Filename := "simple.txt" |} /\
  man fx =
    <["simple.txt" := NewEntry (at32 x02)
                        (<["Filename" := "simple.txt"]>
                           (<["Content-Type" := "text/plain; charset=utf-8"]> ∅))]>
      (<["/" := NewEntry [] (<["website-index-document" := "simple.txt"]> ∅)]> ∅) /\
  (forall path, is_Some (man fx !! path) -> path = "/" \/ path = "simple.txt") /\
  updatesOf (trace fx) = ["Updating reference for file simple.txt"].
Proof.
  cbv zeta.
  assert (Hrun : FileRepair simpleWorld (at32 x01)
                 = (fst (FileRepair simpleWorld (at32 x01)), (newManifestAddress, None)))
    by (vm_compute; reflexivity).
  split; [exact Hrun|].
  destruct (FileRepair_manifest simpleWorld (at32 x01) _ _ Hrun)
    as (j & entryRead & en & jm & metaRead & md & Hj & Hread & Hen & Hjm & Hmeta
        & Hmd & _ & Hman & _ & _ & Hdom & _ & Hup & _).
  assert (Ej : joinerNew simpleWorld (at32 x01) = Ok [ReadChunk (at32 x02 ++ at32 x03)])
    by (vm_compute; reflexivity).
  assert (j = [ReadChunk (at32 x02 ++ at32 x03)]) as -> by congruence.
  assert (Eread : JoinReadAll [ReadChunk (at32 x02 ++ at32 x03)]
                    (NewLimitWriteCloser limitMetadataLength)
                  = Ok {| buf := at32 x02 ++ at32 x03; total := 64;
                          limit := Some limitMetadataLength |})
    by (vm_compute; reflexivity).
  assert (entryRead = {| buf := at32 x02 ++ at32 x03; total := 64;
                          limit := Some limitMetadataLength |}) as -> by congruence.
  cbn [buf] in Hen.
  assert (Een : entryUnmarshalBinary simpleWorld (at32 x02 ++ at32 x03)
                = Ok {| reference := at32 x02; metadata := at32 x03 |})
    by (vm_compute; reflexivity).
  assert (en = {| reference := at32 x02; metadata := at32 x03 |}) as -> by congruence.
  cbn [metadata reference] in *.
  assert (Ejm : joinerNew simpleWorld (at32 x03)
                = Ok [ReadChunk (metadataJSON "simple.txt" "text/plain; charset=utf-8")])
    by (vm_compute; reflexivity).
  assert (jm = [ReadChunk (metadataJSON "simple.txt" "text/plain; charset=utf-8")])
    as -> by congruence.
  assert (Emeta : JoinReadAll
                    [ReadChunk (metadataJSON "simple.txt" "text/plain; charset=utf-8")]
                    NewBuffer
                  = Ok {| buf := metadataJSON "simple.txt" "text/plain; charset=utf-8";
                          total := length (metadataJSON "simple.txt"
                                             "text/plain; charset=utf-8");
                          limit := None |})
    by (vm_compute; reflexivity).
  assert (metaRead = {| buf := metadataJSON "simple.txt" "text/plain; charset=utf-8";
                        total := length (metadataJSON "simple.txt"
                                           "text/plain; charset=utf-8");
                        limit := None |}) as -> by congruence.
  cbn [buf] in Hmd.
  assert (Emd : jsonUnmarshal simpleWorld
                  (metadataJSON "simple.txt" "text/plain; charset=utf-8")
                = Ok {| MimeType := "text/plain; charset=utf-8";
                        Filename := "simple.txt" |})
    by (vm_compute; reflexivity).
  assert (md = {| MimeType := "text/plain; charset=utf-8"; Filename := "simple.txt" |})
    as -> by congruence.
  cbn [Filename MimeType] in *.
  split; [exact Ej|]. split; [exact Een|]. split; [exact Ejm|]. split; [exact Emd|].
  split; [exact Hman|]. split; [exact Hdom|exact Hup].
Defined.

Lemma root_entry_added_once_first_witness :
  loadOldDirectory dirWorld (at32 xd0) = Ok dirLoaded /\
  let s := DirectoryRepair dirWorld (at32 xd0) dirSchedule in
  addsOf (trace (fx s))
    = (RootPath, {| Reference := ZeroAddress; Metadata := dirRootMetadata |})
        :: map leafAdd (sentFiles (trace (fx s))).
Proof.
  split; [reflexivity|].
  apply (proj2 (root_entry_added_once_first dirWorld (at32 xd0) dirLoaded
                  dirSchedule eq_refl) newManifestAddress).
  vm_compute. reflexivity.
Defined.


Lemma missing_root_returns_before_walk_witness :
  joinerNew noRootWorld (at32 xd0) = Ok (joinerOf [x01]) /\
  JoinReadAll (joinerOf [x01]) NewBuffer
    = Ok {| buf := [x01]; total := 1; limit := None |} /\
  nodeUnmarshalBinary noRootWorld [x01] = Ok noNode /\
  LookupNode noNode RootPath = Err "not found" /\
  let s := DirectoryRepair noRootWorld (at32 xd0) [Cancel; RunMain; RunWalk] in
  returned s = Some (ZeroAddress, Some "not found") /\
  walkPC s = WNotStarted /\
  countEv isGo (trace (fx s)) = 0%nat /\
  addsOf (trace (fx s)) = [] /\
  trace (fx s) = [].
Proof.
  do 4 (split; [reflexivity|]).
  apply (missing_root_returns_before_walk noRootWorld (at32 xd0)
           (joinerOf [x01]) {| buf := [x01]; total := 1; limit := None |}
           noNode "not found"); reflexivity.
Defined.


End Scenarios.

Module ExporterScenarios.
Import Exporter ExporterSpec ExporterExamples.

Lemma export_archive_layout_witness :
  exportErr twoRowEnv = None /\
  archive twoRowEnv = versionEntry :: map chunkEntry (rows twoRowEnv).
Proof.
  split; [reflexivity|].
  apply (export_archive_layout twoRowEnv). reflexivity.
Defined.

Lemma export_progress_monotone_witness :
  Z.of_nat (length (rows twoRowEnv)) <= maxInt /\
  StronglySorted Z.lt (map fst (progress twoRowEnv)) /\
  last (progress twoRowEnv) = Some (2, 2).
Proof.
  assert (Hfit : Z.of_nat (length (rows twoRowEnv)) <= maxInt)
    by (unfold maxInt; simpl; lia).
  split; [exact Hfit|].
  destruct (export_progress_monotone twoRowEnv Hfit) as (_ & Hsorted & _ & Hlast).
  split; [exact Hsorted|].
  apply (Hlast eq_refl).
Defined.

Lemma export_empty_index_witness :
  rows emptyEnv = [] /\
  countErr emptyEnv = None /\
  createErr emptyEnv = None /\
  tarErr emptyEnv 0%nat = None /\
  tarErr emptyEnv 1%nat = None /\
  iterateErr emptyEnv 0%nat = None /\
  exportErr emptyEnv = None /\
  archive emptyEnv = [versionEntry] /\
  progress emptyEnv = [(0, 0)].
Proof.
  do 6 (split; [reflexivity|]).
  apply (export_empty_index emptyEnv); reflexivity.
Defined.

End ExporterScenarios.

(** * Properties of the rest of the code *)

(** ** The retrieval index *)

Module RetrievalIndexSpec.
Import Exporter RetrievalIndex.

Lemma byteVal_byteOf v : byteVal (byteOf v) = Z.land v 255.
Proof.
  unfold byteVal, byteOf.
  assert (Hr : 0 <= Z.land v 255 <= 255).
  { change 255 with (Z.ones 8). rewrite Z.land_ones by lia.
    pose proof (Z.mod_pos_bound v (2 ^ 8) ltac:(lia)).
    change (Z.ones 8) with 255. lia. }
  destruct (Byte.of_N (Z.to_N (Z.land v 255))) as [b|] eqn:Hb.
  - apply Byte.to_of_N in Hb. rewrite Hb. lia.
  - apply Byte.of_N_None_iff in Hb. lia.
Qed.

(** The bits a byte of [PutUint64] contributes to [Uint64]. *)
Lemma byte_bits v k n :
  0 <= k -> 0 <= n ->
  Z.testbit (Z.shiftl (byteVal (byteOf (Z.shiftr v k))) k) n =
  Z.testbit v n && (k <=? n) && (n <? k + 8).
Proof.
  intros Hk Hn. rewrite byteVal_byteOf.
  rewrite Z.shiftl_spec by lia.
  destruct (Z.leb_spec k n) as [Hle|Hlt].
  - rewrite Z.land_spec, Z.shiftr_spec by lia.
    change 255 with (Z.ones 8). rewrite Z.testbit_ones by lia.
    replace (n - k + k) with n by lia.
    destruct (Z.testbit v n); cbn; [|reflexivity].
    destruct (Z.ltb_spec n (k + 8)), (Z.ltb_spec (n - k) 8),
      (Z.leb_spec 0 (n - k)); try lia; reflexivity.
  - rewrite Z.testbit_neg_r by lia. rewrite andb_false_r. reflexivity.
Qed.

Lemma Uint64_PutUint64 v : 0 <= v < 2 ^ 64 -> Uint64 (PutUint64 v) = v.
Proof.
  intros Hv. unfold PutUint64, Uint64.
  apply Z.bits_inj'. intros n Hn.
  rewrite <- (Z.shiftl_0_r (byteVal (byteOf v))).
  rewrite <- (Z.shiftr_0_r v) at 1.
  rewrite !Z.lor_spec, !byte_bits by lia.
  destruct (Z.ltb_spec n 64) as [Hlt|Hge].
  - destruct (Z.testbit v n); cbn; [|reflexivity].
    destruct (Z.leb_spec 0 n), (Z.leb_spec 8 n), (Z.leb_spec 16 n),
      (Z.leb_spec 24 n), (Z.leb_spec 32 n), (Z.leb_spec 40 n),
      (Z.leb_spec 48 n), (Z.leb_spec 56 n); try lia;
    destruct (Z.ltb_spec n (0 + 8)), (Z.ltb_spec n (8 + 8)),
      (Z.ltb_spec n (16 + 8)), (Z.ltb_spec n (24 + 8)), (Z.ltb_spec n (32 + 8)),
      (Z.ltb_spec n (40 + 8)), (Z.ltb_spec n (48 + 8)), (Z.ltb_spec n (56 + 8));
      try lia; reflexivity.
  - assert (Hhigh : Z.testbit v n = false).
    { rewrite <- (Z.mod_small v (2 ^ 64)) by lia.
      apply Z.mod_pow2_bits_high. lia. }
    rewrite Hhigh. reflexivity.
Qed.

Lemma wrapInt_toUint64 x : - 2 ^ 63 <= x < 2 ^ 63 -> wrapInt (toUint64 x) = x.
Proof.
  intros Hx. unfold wrapInt, toUint64.
  rewrite Zplus_mod_idemp_l.
  apply wrapInt_small. unfold maxInt. lia.
Qed.

(** The three parts of a value that starts with two blocks of eight bytes. *)
Lemma header_parts (a b d : list byte) :
  length a = 8%nat -> length b = 8%nat ->
  take 8 (a ++ b ++ d) = a /\
  take 8 (drop 8 (a ++ b ++ d)) = b /\
  drop 16 (a ++ b ++ d) = d.
Proof.
  intros Ha Hb.
  do 9 (destruct a as [|? a]; try discriminate Ha).
  do 9 (destruct b as [|? b]; try discriminate Hb).
  cbn. rewrite take_0. done.
Qed.

(** X1: what [EncodeValue] writes for an item, [DecodeValue] reads back:
    the bin id, the store timestamp (negative ones included) and the data;
    and the key written for an item decodes to its address. *)
Theorem index_row_round_trip fields :
  wellTyped fields ->
  DecodeValue (EncodeValue fields) =
    Some {| Address := []; Data := Data fields;
            StoreTimestamp := StoreTimestamp fields; BinID := BinID fields |} /\
  Address (DecodeKey (EncodeKey fields)) = Address fields /\
  length (EncodeValue fields) = (16 + length (Data fields))%nat.
Proof.
  intros [Hbin Hts].
  assert (Hu : 0 <= toUint64 (StoreTimestamp fields) < 2 ^ 64)
    by (apply Z.mod_pos_bound; lia).
  split; [|split; [reflexivity|unfold EncodeValue; rewrite !length_app; reflexivity]].
  unfold DecodeValue, EncodeValue.
  rewrite !length_app.
  change (length (PutUint64 _) + length (PutUint64 _) + length (Data fields))%nat
    with (16 + length (Data fields))%nat.
  change (16 + length (Data fields) <? 16)%nat with false. cbv iota.
  rewrite <- !app_assoc.
  destruct (header_parts (PutUint64 (BinID fields))
              (PutUint64 (toUint64 (StoreTimestamp fields))) (Data fields)
              eq_refl eq_refl) as (-> & -> & ->).
  rewrite !Uint64_PutUint64 by assumption.
  rewrite wrapInt_toUint64 by assumption.
  reflexivity.
Qed.

Lemma byteVal_range b : 0 <= byteVal b < 256.
Proof. unfold byteVal. pose proof (Byte.to_N_bounded b). lia. Qed.

Lemma byteOf_eq x b : Z.land x 255 = byteVal b -> byteOf x = b.
Proof.
  intros H. unfold byteOf. rewrite H. unfold byteVal.
  rewrite N2Z.id, Byte.of_to_N. reflexivity.
Qed.

Lemma byteVal_bit_out b j : j < 0 \/ 8 <= j -> Z.testbit (byteVal b) j = false.
Proof.
  intros [Hj|Hj]; [apply Z.testbit_neg_r; exact Hj|].
  pose proof (byteVal_range b) as Hb.
  rewrite <- (Z.mod_small (byteVal b) (2 ^ 8)) by lia.
  apply Z.mod_pow2_bits_high. lia.
Qed.

(** The eight bits found at a byte boundary of a [Uint64] are those of
    the byte placed there. *)
Ltac byte_at :=
  apply byteOf_eq; apply Z.bits_inj'; intros n Hn;
  rewrite Z.land_spec, ?Z.shiftr_spec by lia;
  change 255 with (Z.ones 8); rewrite Z.testbit_ones by lia;
  rewrite !Z.lor_spec, !Z.shiftl_spec by lia;
  destruct (Z.ltb_spec n 8) as [Hlt|Hge];
  [ repeat match goal with
           | |- context [Z.testbit (byteVal ?b) ?j] =>
               rewrite (byteVal_bit_out b j) by lia
           end;
    destruct (Z.leb_spec 0 n); [|lia];
    rewrite ?orb_false_r, ?orb_false_l, ?andb_true_r; f_equal; lia
  | rewrite !andb_false_r; symmetry; apply byteVal_bit_out; lia ].

Lemma PutUint64_Uint64 b0 b1 b2 b3 b4 b5 b6 b7 :
  PutUint64 (Uint64 [b0; b1; b2; b3; b4; b5; b6; b7]) = [b0; b1; b2; b3; b4; b5; b6; b7].
Proof.
  unfold PutUint64, Uint64.
  f_equal; [byte_at|]. f_equal; [byte_at|]. f_equal; [byte_at|].
  f_equal; [byte_at|]. f_equal; [byte_at|]. f_equal; [byte_at|].
  f_equal; [byte_at|]. f_equal. byte_at.
Qed.

Lemma Uint64_range b : 0 <= Uint64 b < 2 ^ 64.
Proof.
  unfold Uint64.
  do 8 (destruct b as [|? b]; [lia|]).
  destruct b; [|lia].
  match goal with |- 0 <= ?u < _ => set (U := u) end.
  assert (Hnn : 0 <= U).
  { unfold U. repeat (apply Z.lor_nonneg; split);
      try apply Z.shiftl_nonneg; apply byteVal_range. }
  assert (Hmod : U mod 2 ^ 64 = U).
  { apply Z.bits_inj'. intros n Hn.
    destruct (Z.ltb_spec n 64) as [Hlt|Hge];
      [apply Z.mod_pow2_bits_low; lia|].
    rewrite Z.mod_pow2_bits_high by lia. unfold U.
    rewrite !Z.lor_spec, !Z.shiftl_spec by lia.
    rewrite !byteVal_bit_out by lia. reflexivity. }
  pose proof (Z.mod_pos_bound U (2 ^ 64) ltac:(lia)). lia.
Qed.

Lemma wrapInt_range z : - 2 ^ 63 <= wrapInt z < 2 ^ 63.
Proof.
  unfold wrapInt. pose proof (Z.mod_pos_bound (z + 2 ^ 63) (2 ^ 64) ltac:(lia)). lia.
Qed.

Lemma toUint64_wrapInt u : 0 <= u < 2 ^ 64 -> toUint64 (wrapInt u) = u.
Proof.
  intros Hu. unfold toUint64, wrapInt.
  rewrite Zminus_mod_idemp_l.
  replace (u + 2 ^ 63 - 2 ^ 63) with u by lia.
  apply Z.mod_small. exact Hu.
Qed.

(** X2: every stored value of sixteen bytes or more decodes, what it
    decodes to has fields within their Go types, and [EncodeValue] turns
    that back into the very bytes that were stored. *)
Theorem stored_value_round_trip value :
  (16 <= length value)%nat ->
  exists fields,
    DecodeValue value = Some fields /\
    wellTyped fields /\
    EncodeValue fields = value.
Proof.
  intros Hlen. unfold DecodeValue.
  destruct (Nat.ltb_spec (length value) 16) as [|_]; [lia|].
  eexists. split; [reflexivity|].
  unfold wellTyped, EncodeValue. cbn [BinID StoreTimestamp Data].
  split; [split; [apply Uint64_range|apply wrapInt_range]|].
  rewrite toUint64_wrapInt by apply Uint64_range.
  do 16 (destruct value as [|? value]; [cbn in Hlen; lia|]).
  cbn [take drop]. rewrite take_0, !PutUint64_Uint64. reflexivity.
Qed.

End RetrievalIndexSpec.

(** ** Options *)

Module OptionsSpec.

(** X3: the options of the exporter compose: whatever precedes it, a
    final [WithDestinationFilename] decides the destination, the empty
    name standing for the default one; [WithProgressUpdater] leaves the
    destination alone; and whatever the options, an exporter that is built
    has a destination file name and an updater. *)
Theorem exporter_options_compose env (opts : list ExporterOptions.Option) :
  Exporter.openErr env = None ->
  (forall fname, exists e,
     ExporterOptions.newExporter env
       (opts ++ [ExporterOptions.WithDestinationFilename fname]) = Ok e /\
     ExporterOptions.dstFile e =
       if String.eqb fname "" then Exporter.DefaultExportFilename else fname) /\
  (forall upd, exists e e',
     ExporterOptions.newExporter env opts = Ok e /\
     ExporterOptions.newExporter env
       (opts ++ [ExporterOptions.WithProgressUpdater upd]) = Ok e' /\
     ExporterOptions.dstFile e' = ExporterOptions.dstFile e) /\
  (exists e,
     ExporterOptions.newExporter env opts = Ok e /\
     ExporterOptions.dstFile e <> "" /\ ExporterOptions.updater e <> None).
Proof.
  intros Hopen. unfold ExporterOptions.newExporter. rewrite Hopen.
  split; [|split].
  - intros fname. eexists. split; [reflexivity|].
    rewrite fold_left_app. cbn [fold_left].
    unfold ExporterOptions.defaultOpts, ExporterOptions.WithDestinationFilename.
    cbn [ExporterOptions.dstFile ExporterOptions.updater].
    destruct (fold_left _ opts _) as [dst [u|]];
      cbn [ExporterOptions.dstFile ExporterOptions.updater];
      destruct (String.eqb fname ""); reflexivity.
  - intros upd. eexists _, _. split; [reflexivity|]. split; [reflexivity|].
    rewrite fold_left_app. cbn [fold_left].
    unfold ExporterOptions.defaultOpts, ExporterOptions.WithProgressUpdater.
    destruct (fold_left _ opts _) as [dst u];
      cbn [ExporterOptions.dstFile ExporterOptions.updater].
    destruct (String.eqb dst ""), upd, u; reflexivity.
  - eexists. split; [reflexivity|]. unfold ExporterOptions.defaultOpts.
    destruct (fold_left _ opts _) as [dst u];
      cbn [ExporterOptions.dstFile ExporterOptions.updater].
    destruct (String.eqb_spec dst "") as [->|Hne], u;
      cbn [ExporterOptions.dstFile ExporterOptions.updater]; split; done.
Qed.

(** A successful [export] has counted the records and created the file. *)
Lemma export_ok_opened env :
  snd (Exporter.export env) = Ok tt ->
  Exporter.countErr env = None /\ Exporter.createErr env = None.
Proof.
  unfold Exporter.export.
  destruct (ExporterSpec.exportBody_cases env) as [(s & e & -> & _)|(Hc & Hf & _)];
    [discriminate|done].
Qed.

(** X4: when the [export-db] command succeeds, its message names the value
    of the destination flag, and the file that was created is the one of
    that name, but for the empty name: then the file created is the
    default one. *)
Theorem exportDB_reports_flag env dstFilename upd run msg :
  ExporterOptions.exportDB env dstFilename upd = (run, Ok msg) ->
  msg = "Exported database to " +:+ dstFilename /\
  ExporterOptions.created run =
    Some (if String.eqb dstFilename "" then Exporter.DefaultExportFilename
          else dstFilename).
Proof.
  unfold ExporterOptions.exportDB, ExporterOptions.ExportWith,
    ExporterOptions.newExporter.
  destruct (Exporter.openErr env); cbn; [discriminate|].
  destruct (snd (Exporter.export env)) as [[]|err] eqn:Hrun; [|discriminate].
  destruct (export_ok_opened env Hrun) as [-> ->].
  intros [= <- <-]. cbn. split; [reflexivity|].
  unfold ExporterOptions.defaultOpts. cbn.
  destruct (String.eqb dstFilename ""); reflexivity.
Qed.

(** X5: the options of the repairer compose: a final [WithPin] decides
    the mode of the load-saver and a final [WithAPIStore] its store, and
    the options that do not concern the mode leave it alone; whatever the
    options, the load-saver is built from the final store, pin and
    encryption settings, and store, logger and updater are set. *)
Theorem repairer_options_compose (opts : list RepairOptions.Option) :
  let mode r := option_map RepairOptions.lsMode (RepairOptions.ls r) in
  (forall val,
     mode (RepairOptions.newWithOptions (opts ++ [RepairOptions.WithPin val]))
     = Some (if val then RepairOptions.ModePutUploadPin
             else RepairOptions.ModePutUpload)) /\
  (forall host port ssl,
     RepairOptions.store
       (RepairOptions.newWithOptions (opts ++ [RepairOptions.WithAPIStore host port ssl]))
     = Some (RepairOptions.APIStore host port ssl)) /\
  (forall val l upd,
     mode (RepairOptions.newWithOptions (opts ++ [RepairOptions.WithEncryption val]))
       = mode (RepairOptions.newWithOptions opts) /\
     mode (RepairOptions.newWithOptions (opts ++ [RepairOptions.WithLogger l]))
       = mode (RepairOptions.newWithOptions opts) /\
     mode (RepairOptions.newWithOptions (opts ++ [RepairOptions.WithProgressUpdater upd]))
       = mode (RepairOptions.newWithOptions opts)) /\
  (let r := RepairOptions.newWithOptions opts in
   RepairOptions.store r <> None /\
   RepairOptions.logger r <> None /\
   RepairOptions.updater r <> None /\
   RepairOptions.ls r =
     Some {| RepairOptions.lsStore := RepairOptions.store r;
             RepairOptions.lsMode :=
               if RepairOptions.pin r then RepairOptions.ModePutUploadPin
               else RepairOptions.ModePutUpload;
             RepairOptions.lsEncrypted := RepairOptions.encrypt r |}).
Proof.
  cbv zeta. unfold RepairOptions.newWithOptions.
  split; [|split; [|split]].
  - intros val. rewrite fold_left_app. cbn. reflexivity.
  - intros host port ssl. rewrite fold_left_app. cbn. reflexivity.
  - intros val l upd. rewrite !fold_left_app. cbn. done.
  - cbn. destruct (fold_left _ opts _) as [st l lg en pn up]. cbn.
    destruct st, lg, up; done.
Qed.

(** X6: the options the [file] and [directory] commands pass never
    include [WithPin]: whatever the value of the pin flag, the repairer
    uploads without pinning; the host, port, SSL and encryption flags do
    reach it. *)
Theorem commands_never_pin (f : RepairOptions.Flags) l cmd :
  let r := RepairOptions.newWithOptions (RepairOptions.commandOptions f l cmd) in
  RepairOptions.pin r = false /\
  RepairOptions.ls r =
    Some {| RepairOptions.lsStore :=
              Some (RepairOptions.APIStore (RepairOptions.flagHost f)
                      (RepairOptions.flagPort f) (RepairOptions.flagSSL f));
            RepairOptions.lsMode := RepairOptions.ModePutUpload;
            RepairOptions.lsEncrypted := RepairOptions.flagEncrypted f |}.
Proof. cbv zeta. cbn. done. Qed.

End OptionsSpec.

(** ** The archive, its names and the tests' checks *)

Module ArchiveSpec.
Import Exporter ExporterTest.

Lemma hexDigit_inj a b :
  (a < 16)%N -> (b < 16)%N -> hexDigit a = hexDigit b -> a = b.
Proof.
  intros Ha Hb.
  assert (Hcases : forall n, (n < 16)%N ->
            n = 0%N \/ n = 1%N \/ n = 2%N \/ n = 3%N \/ n = 4%N \/ n = 5%N \/
            n = 6%N \/ n = 7%N \/ n = 8%N \/ n = 9%N \/ n = 10%N \/ n = 11%N \/
            n = 12%N \/ n = 13%N \/ n = 14%N \/ n = 15%N) by (intros n Hn; lia).
  destruct (Hcases a Ha) as [->|[->|[->|[->|[->|[->|[->|[->|[->|[->|[->|[->|[->|[->|[->| ->]]]]]]]]]]]]]]];
  destruct (Hcases b Hb) as [->|[->|[->|[->|[->|[->|[->|[->|[->|[->|[->|[->|[->|[->|[->| ->]]]]]]]]]]]]]]];
    vm_compute; intros H; first [reflexivity | discriminate H].
Qed.

Lemma nibbles_bound (v : byte) :
  (N.shiftr (Byte.to_N v) 4 < 16)%N /\ (N.land (Byte.to_N v) 15 < 16)%N.
Proof.
  pose proof (byte_to_N_bound v) as Hv. split.
  - rewrite N.shiftr_div_pow2. apply N.Div0.div_lt_upper_bound. exact Hv.
  - change 15%N with (N.ones 4). rewrite N.land_ones.
    apply N.mod_upper_bound. discriminate.
Qed.

Lemma byte_of_nibbles (u v : byte) :
  N.shiftr (Byte.to_N u) 4 = N.shiftr (Byte.to_N v) 4 ->
  N.land (Byte.to_N u) 15 = N.land (Byte.to_N v) 15 ->
  u = v.
Proof.
  intros Hhi Hlo.
  assert (Hn : Byte.to_N u = Byte.to_N v).
  { rewrite !N.shiftr_div_pow2 in Hhi.
    change 15%N with (N.ones 4) in Hlo. rewrite !N.land_ones in Hlo.
    rewrite (N.div_mod (Byte.to_N u) (2 ^ 4)) by discriminate.
    rewrite (N.div_mod (Byte.to_N v) (2 ^ 4)) by discriminate.
    rewrite Hhi, Hlo. reflexivity. }
  apply (f_equal Byte.of_N) in Hn. rewrite !Byte.of_to_N in Hn.
  congruence.
Qed.

(** Distinct addresses have distinct hexadecimal forms. *)
Lemma EncodeToString_inj a : forall b,
  EncodeToString a = EncodeToString b -> a = b.
Proof.
  induction a as [|u a IH]; intros [|v b] H; cbn in H; try discriminate; [reflexivity|].
  injection H as Hhi Hlo Hrest.
  destruct (nibbles_bound u) as [Hu1 Hu2]. destruct (nibbles_bound v) as [Hv1 Hv2].
  apply hexDigit_inj in Hhi, Hlo; try assumption.
  rewrite (byte_of_nibbles u v Hhi Hlo), (IH b Hrest). reflexivity.
Qed.

(** No address has the name of the version marker as its hexadecimal form. *)
Lemma EncodeToString_not_marker a : EncodeToString a <> ExportVersionFilename.
Proof.
  intros H. pose proof (EncodeToString_lower a) as Hl.
  rewrite H in Hl. vm_compute in Hl. discriminate.
Qed.

(** The archive of a successful export, in terms of the rows. *)
Lemma export_ok_archive env :
  exportErr env = None ->
  archive env = versionEntry :: map chunkEntry (rows env).
Proof.
  intros Hok. unfold archive, exportErr, export in *.
  destruct (ExporterSpec.exportBody_cases env) as [(s & e & Hb & _)|(_ & _ & Hb)];
    rewrite Hb in *; [discriminate|].
  set (total := Z.of_nat (length (rows env))) in *.
  destruct (Iterate env (exportItem env total) 0 (rows env) (afterMarker total))
    as [s' r] eqn:Hrun.
  cbn [fst snd runDeferred tw] in *.
  destruct r as [[]|e]; [|discriminate].
  destruct (ExporterSpec.Iterate_archive env total (rows env) 0%nat (afterMarker total)
              (ExporterSpec.afterMarker_settled total) s' Hrun) as [-> _].
  reflexivity.
Qed.

(** X7: in the archive of a successful export over records of pairwise
    distinct addresses, no two entries have the same name: the names of
    the chunk entries determine their addresses, and none of them is the
    name of the version marker. *)
Theorem export_entry_names_distinct env :
  exportErr env = None ->
  NoDup (map Address (rows env)) ->
  NoDup (map (fun en => Name (hdr en)) (archive env)) /\
  (forall a b, EncodeToString a = EncodeToString b -> a = b) /\
  Forall (fun item => Name (hdr (chunkEntry item)) <> ExportVersionFilename)
         (rows env).
Proof.
  intros Hok Hnd. split; [|split].
  - rewrite (export_ok_archive env Hok). cbn [map hdr Name versionEntry].
    rewrite map_map. cbn [chunkEntry hdr Name].
    apply NoDup_cons. split.
    + intros Hin. apply list_elem_of_In, in_map_iff in Hin as (item & Hname & _).
      exact (EncodeToString_not_marker _ Hname).
    + rewrite <- (map_map Address EncodeToString).
      apply NoDup_fmap_2; [|exact Hnd].
      intros a b. apply EncodeToString_inj.
  - intros a b. apply EncodeToString_inj.
  - apply Forall_forall. intros item _. apply EncodeToString_not_marker.
Qed.

Lemma bytesEqual_refl a : bytesEqual a a = true.
Proof.
  induction a as [|x a IH]; [reflexivity|]. cbn.
  rewrite IH, andb_true_r. apply Byte.byte_dec_lb. reflexivity.
Qed.

Lemma readChunkBuf_exact data : readChunkBuf (length data) data = data.
Proof.
  unfold readChunkBuf. rewrite firstn_all, Nat.sub_diag. cbn. apply app_nil_r.
Qed.

(** What [chunkMapOf] holds: the data of the last chunk of each address. *)
Lemma chunkMapOf_lookup chunks : forall (m : gmap string (list byte)) c,
  In c chunks ->
  NoDup (map Address chunks) ->
  fold_left (fun m c => <[EncodeToString (Address c) := Data c]> m) chunks m
    !! EncodeToString (Address c) = Some (Data c).
Proof.
  induction chunks as [|c0 chunks IH]; intros m c Hin Hnd; [destruct Hin|].
  cbn [fold_left]. cbn [map] in Hnd. apply NoDup_cons in Hnd as [Hnot Hnd].
  destruct Hin as [->|Hin]; [|apply IH; assumption].
  clear IH. revert m. induction chunks as [|c1 chunks IH]; intros m.
  - cbn. apply lookup_insert_eq.
  - cbn [fold_left]. cbn [map] in Hnot, Hnd.
    apply NoDup_cons in Hnd as [_ Hnd].
    apply not_elem_of_cons in Hnot as [Hne Hnot].
    rewrite insert_insert_ne.
    + apply IH; assumption.
    + intros Heq. apply Hne. apply EncodeToString_inj. symmetry. exact Heq.
Qed.

Lemma verifyTar_chunks chunkMap items :
  (forall item, In item items ->
     chunkMap !! EncodeToString (Address item) = Some (Data item)) ->
  verifyTar (map chunkEntry items) chunkMap = Ok tt.
Proof.
  induction items as [|item items IH]; intros Hmap; [reflexivity|].
  cbn [map verifyTar chunkEntry hdr Name Size payload].
  destruct (String.eqb_spec (EncodeToString (Address item)) ExportVersionFilename)
    as [Heq|_]; [destruct (EncodeToString_not_marker _ Heq)|].
  rewrite (Hmap item (or_introl eq_refl)).
  rewrite Z.eqb_refl. cbn [negb]. rewrite Nat2Z.id, readChunkBuf_exact, bytesEqual_refl.
  cbn [negb]. apply IH. intros it Hit. apply Hmap. right. exact Hit.
Qed.

(** X8: [verifyTar], the check of the exporter's test, accepts the
    archive of every successful export when the map it is given is the
    one [createTestStore] builds for chunks of pairwise distinct
    addresses and the index yields those chunks, in whatever order. *)
Theorem verifyTar_accepts_export env chunks :
  exportErr env = None ->
  Permutation (rows env) chunks ->
  NoDup (map Address chunks) ->
  verifyTar (archive env) (chunkMapOf chunks) = Ok tt.
Proof.
  intros Hok Hperm Hnd. rewrite (export_ok_archive env Hok).
  cbn [verifyTar versionEntry hdr Name Size]. rewrite String.eqb_refl, Z.eqb_refl.
  cbn [negb]. apply verifyTar_chunks. intros item Hin.
  apply chunkMapOf_lookup; [|exact Hnd].
  apply (Permutation_in _ Hperm Hin).
Qed.

Lemma checkUpdater_counts total : forall n k,
  Z.of_nat (k + n) <= total + 1 ->
  forall prev, prev <= Z.of_nat k ->
  checkUpdater prev (updatesFrom total k n)
    = Ok (if (n =? 0)%nat then prev else Z.of_nat (k + n) - 1).
Proof.
  induction n as [|n IH]; intros k Hfit prev Hprev; [reflexivity|].
  cbn [updatesFrom seq map checkUpdater checkUpdate]. unfold checkUpdate.
  replace (prev >? Z.of_nat k) with false by (symmetry; rewrite Z.gtb_ltb; apply Z.ltb_ge; lia).
  replace (Z.of_nat k >? total) with false by (symmetry; rewrite Z.gtb_ltb; apply Z.ltb_ge; lia).
  cbn [rbind]. fold (updatesFrom total (S k) n).
  rewrite IH by lia. destruct n; cbn [Nat.eqb]; f_equal; lia.
Qed.

(** X9: a [checkUpdater], the progress check of the exporter's test,
    never fails on the calls an export makes to it, whether the export
    succeeds or not; after a successful export its [prev] is the number
    of records. *)
Theorem checkUpdater_accepts_export env :
  Z.of_nat (length (rows env)) <= maxInt ->
  exists prev,
    checkUpdater 0 (progress env) = Ok prev /\
    0 <= prev <= Z.of_nat (length (rows env)) /\
    (exportErr env = None -> prev = Z.of_nat (length (rows env))).
Proof.
  intros Hfit.
  destruct (ExporterSpec.export_progress_shape env Hfit) as [Hnil|(j & Hj & Hup & Hok)].
  - rewrite Hnil. exists 0. cbn. split; [reflexivity|]. split; [lia|].
    intros Hsucc. unfold progress, exportErr, export in *.
    destruct (ExporterSpec.exportBody_cases env) as [(s & e & Hb & _)|(_ & _ & Hb)];
      rewrite Hb in *; [discriminate|].
    destruct (Iterate env _ 0 (rows env) (afterMarker _)) as [s' r] eqn:Hrun.
    destruct (ExporterSpec.Iterate_updates env _ (rows env) 0%nat (afterMarker _) 0%nat
                (ExporterSpec.afterMarker_settled _) eq_refl Hfit s' r Hrun)
      as (j & _ & Hup & _).
    cbn [fst runDeferred updates] in Hnil. rewrite Hup in Hnil. discriminate.
  - rewrite Hup. exists (Z.of_nat j).
    rewrite (checkUpdater_counts _ (S j) 0%nat) by lia.
    cbn [Nat.eqb]. split; [f_equal; lia|]. split; [lia|].
    intros Hsucc. rewrite (Hok Hsucc). reflexivity.
Qed.

Lemma bytesEqual_eq a : forall b, bytesEqual a b = true -> a = b.
Proof.
  induction a as [|x a IH]; intros [|y b] H; cbn in H; try discriminate; [reflexivity|].
  apply andb_prop in H as [Hxy Hab].
  apply Byte.byte_dec_bl in Hxy. rewrite Hxy, (IH b Hab). reflexivity.
Qed.

(** What one entry has passed when [verifyTar] accepts it. *)
Lemma verifyTar_cons en rest chunkMap :
  verifyTar (en :: rest) chunkMap = Ok tt ->
  (Name (hdr en) = ExportVersionFilename /\
   Size (hdr en) = Z.of_nat (String.length CurrentExportVersion) \/
   Name (hdr en) <> ExportVersionFilename /\
   exists data,
     chunkMap !! Name (hdr en) = Some data /\
     Size (hdr en) = Z.of_nat (length data) /\
     readChunkBuf (length data) (payload en) = data) /\
  verifyTar rest chunkMap = Ok tt.
Proof.
  cbn [verifyTar].
  destruct (String.eqb_spec (Name (hdr en)) ExportVersionFilename) as [Hname|Hname].
  - destruct (Z.eqb_spec (Size (hdr en)) (Z.of_nat (String.length CurrentExportVersion)))
      as [Hsize|_]; cbn [negb]; [|discriminate].
    intros Hrest. split; [left; done|exact Hrest].
  - destruct (chunkMap !! Name (hdr en)) as [data|]; [|discriminate].
    destruct (Z.eqb_spec (Size (hdr en)) (Z.of_nat (length data))) as [Hsize|_];
      cbn [negb]; [|discriminate].
    rewrite Hsize, Nat2Z.id.
    destruct (bytesEqual data (readChunkBuf (length data) (payload en))) eqn:Heq;
      cbn [negb]; [|discriminate].
    intros Hrest. split; [right|exact Hrest]. split; [exact Hname|].
    exists data. split; [reflexivity|]. split; [reflexivity|].
    symmetry. apply bytesEqual_eq, Heq.
Qed.

(** X21: what [verifyTar] establishes and what it does not.  In an
    archive it accepts, every entry is either named as the version marker
    and sized as the version string, or named as a chunk of the map,
    sized as that chunk's data and holding exactly that data.  It accepts
    every archive obtained from an accepted one by leaving entries out:
    a missing chunk or a missing marker goes unnoticed. *)
Theorem verifyTar_sound_not_complete entries chunkMap :
  verifyTar entries chunkMap = Ok tt ->
  Forall (fun en =>
            Name (hdr en) = ExportVersionFilename /\
            Size (hdr en) = Z.of_nat (String.length CurrentExportVersion) \/
            Name (hdr en) <> ExportVersionFilename /\
            exists data,
              chunkMap !! Name (hdr en) = Some data /\
              Size (hdr en) = Z.of_nat (length data) /\
              readChunkBuf (length data) (payload en) = data)
         entries /\
  (forall fewer, sublist fewer entries -> verifyTar fewer chunkMap = Ok tt).
Proof.
  induction entries as [|en rest IH]; intros Hok.
  - split; [constructor|]. intros fewer Hsub. apply sublist_nil_r in Hsub as ->.
    reflexivity.
  - apply verifyTar_cons in Hok as [Hen Hrest].
    destruct (IH Hrest) as [Hall Hsub]. split; [constructor; assumption|].
    intros fewer Hfewer. apply sublist_cons_r in Hfewer as [Hf|(l' & -> & Hf)].
    + apply Hsub, Hf.
    + cbn [verifyTar]. specialize (Hsub l' Hf).
      destruct Hen as [[Hname Hsize]|(Hname & data & Hm & Hsize & Hdata)].
      * rewrite Hname, String.eqb_refl, Hsize, Z.eqb_refl. exact Hsub.
      * destruct (String.eqb_spec (Name (hdr en)) ExportVersionFilename);
          [contradiction|].
        rewrite Hm, Hsize, Z.eqb_refl, Nat2Z.id, Hdata, bytesEqual_refl.
        exact Hsub.
Qed.

Ltac unfold_ops :=
  unfold exportItem, WriteHeader, Write, Update, modify, check, bind, ret, fail,
    setWriter, setDoneCount, remaining, flush in *; cbn [tw doneCount updates
    twClosed dbClosed written curr ops hdr payload Size Name Mode fst snd] in *.

(** What a failed run of the function literal leaves: the archive as
    it was, or with the header of the row and some first bytes of its
    data; the progress sink has been told nothing. *)
Lemma exportItem_failure env total item s s' e :
  settled s ->
  exportItem env total item s = (s', Err e) ->
  (flush (tw s') = flush (tw s) \/
   exists k, flush (tw s') = flush (tw s) ++ [cutShort k (chunkEntry item)]) /\
  updates s' = updates s.
Proof.
  unfold settled. intros Hs. destruct s as [[wr cu op] dc up tc bc].
  unfold_ops.
  destruct (tarErr env op) as [e1|].
  { destruct (tarPartial env op <? blockSize)%nat; intros [= <- <-]; cbn;
      [auto|]. split; [right|reflexivity]. exists 0%nat. reflexivity. }
  replace (0 <? match cu with
                | Some e => Size (hdr e) - Z.of_nat (length (payload e))
                | None => 0
                end) with false by (symmetry; apply Z.ltb_ge; lia).
  cbn [tw doneCount updates twClosed dbClosed written curr ops hdr payload Size].
  destruct (tarErr env (S op)) as [e2|].
  - intros [= <- <-]. cbn. split; [right|reflexivity].
    exists (tarPartial env (S op)). unfold cutShort. cbn.
    rewrite Z.sub_0_r, Nat2Z.id, firstn_all. reflexivity.
  - cbn [length]. rewrite Z.sub_0_r.
    replace (Z.of_nat (length (Data item)) >? Z.of_nat (length (Data item)))
      with false by (symmetry; rewrite Z.gtb_ltb; apply Z.ltb_ge; lia).
    discriminate.
Qed.

(** The archive and the progress log after an iteration, successful or
    not: the entries of the first [j] rows, then at most the header of
    the next one with part of its data; one call to the progress sink
    per complete entry. *)
Lemma Iterate_outcome env total items : forall i s s' r,
  settled s ->
  Iterate env (exportItem env total) i items s = (s', r) ->
  exists j tail,
    (j <= length items)%nat /\
    flush (tw s') = flush (tw s) ++ map chunkEntry (take j items) ++ tail /\
    length (updates s') = (length (updates s) + j)%nat /\
    (tail = [] \/
     r <> Ok tt /\ exists item k, items !! j = Some item /\
                                  tail = [cutShort k (chunkEntry item)]) /\
    (r = Ok tt -> j = length items /\ tail = []).
Proof.
  induction items as [|item rest IH]; intros i s s' r Hs Hrun.
  - exists 0%nat, []. cbn in Hrun. unfold check in Hrun.
    destruct (iterateErr env i); cbn in Hrun; injection Hrun as <- <-;
      cbn; rewrite app_nil_r; repeat split; auto.
  - cbn [Iterate] in Hrun. unfold bind at 1 in Hrun. unfold check in Hrun.
    destruct (iterateErr env i); cbn [fail ret] in Hrun.
    { injection Hrun as <- <-. exists 0%nat, []. cbn. rewrite app_nil_r.
      repeat split; auto; try lia; discriminate. }
    unfold bind at 1 in Hrun.
    pose proof (ExporterSpec.exportItem_spec env total item s Hs) as Hitem.
    destruct (exportItem env total item s) as [s1 [stop|e]] eqn:Hfn.
    + destruct Hitem as (-> & Harch & Hs1 & _ & Hup1).
      destruct (IH (S i) s1 s' r Hs1 Hrun) as (j & tail & Hj & Hfl & Hlen & Htail & Hok).
      exists (S j), tail. cbn [length take map lookup].
      split; [lia|]. split; [rewrite Hfl, Harch, <- app_assoc; reflexivity|].
      split; [rewrite Hlen, Hup1, length_app; cbn; lia|].
      split; [exact Htail|].
      intros Hr. destruct (Hok Hr) as [-> ->]. done.
    + injection Hrun as <- <-.
      destruct (exportItem_failure env total item s s1 e Hs Hfn)
        as [[Hfl|[k Hfl]] Hup]; rewrite Hup.
      * exists 0%nat, []. cbn. rewrite app_nil_r.
        repeat split; auto; try lia; discriminate.
      * exists 0%nat, [cutShort k (chunkEntry item)]. cbn.
        split; [lia|]. split; [exact Hfl|]. split; [lia|].
        split; [right; split; [discriminate|eexists _, _; done]|discriminate].
Qed.

(** X10: whether an export succeeds or not, the archive it leaves starts
    as the one a successful export writes: the version marker and the
    entries of the first records, complete and in order.  What follows
    them, if anything, is the entry at which the export failed: its
    header with the bytes of its data that reached the file before the
    failure.  The progress sink has received one call more than there
    are complete chunk entries.  An export that fails before the marker
    is complete has told the progress sink nothing. *)
Theorem failed_export_leaves_prefix env :
  (exportErr env <> None /\ progress env = [] /\
   (archive env = [] \/ exists k, archive env = [cutShort k versionEntry])) \/
  (exists j tail,
     (j <= length (rows env))%nat /\
     archive env = versionEntry :: map chunkEntry (take j (rows env)) ++ tail /\
     length (progress env) = S j /\
     (tail = [] \/
      exportErr env <> None /\
      exists item k, rows env !! j = Some item /\
                     tail = [cutShort k (chunkEntry item)]) /\
     (exportErr env = None -> j = length (rows env) /\ tail = [])).
Proof.
  unfold exportErr, archive, progress, export.
  destruct (exportBody env initState) as [s r] eqn:Hbody.
  cbn [fst snd runDeferred tw updates].
  revert Hbody.
  unfold exportBody, Count, bind, check, modify, WriteHeader, Write, Update.
  destruct (countErr env) as [e|]; cbn.
  { intros [= <- <-]. left. cbn. split; [discriminate|]. auto. }
  destruct (createErr env) as [e|]; cbn.
  { intros [= <- <-]. left. cbn. split; [discriminate|]. auto. }
  destruct (tarErr env 0%nat) as [e|]; cbn.
  { destruct (Nat.leb _ _); intros [= <- <-]; left; cbn;
      (split; [discriminate|]); [auto|].
    split; [reflexivity|]. right. exists 0%nat. reflexivity. }
  destruct (tarErr env 1%nat) as [e|]; cbn.
  { intros [= <- <-]. left. cbn. split; [discriminate|]. split; [reflexivity|].
    right. exists (tarPartial env 1%nat). reflexivity. }
  change {| tw := {| written := []; curr := Some {| hdr := {| Name := ExportVersionFilename; Mode := 420; Size := 1 |}; payload := [x31] |}; ops := 2 |};
            doneCount := 0; updates := [(0, Z.of_nat (length (rows env)))];
            twClosed := false; dbClosed := false |}
    with (afterMarker (Z.of_nat (length (rows env)))).
  intros Hrun. right.
  set (total := Z.of_nat (length (rows env))) in *.
  destruct (Iterate_outcome env total (rows env) 0%nat (afterMarker total) s r
              (ExporterSpec.afterMarker_settled total) Hrun)
    as (j & tail & Hj & Hfl & Hlen & Htail & Hok).
  exists j, tail. split; [exact Hj|]. split; [rewrite Hfl; reflexivity|].
  split; [rewrite Hlen; reflexivity|]. split.
  - destruct Htail as [->|(Hr & item & k & Hitem & ->)]; [left; done|right].
    split; [|eexists _, _; done]. destruct r as [[]|e]; [done|discriminate].
  - intros Hr. apply Hok. destruct r as [[]|e]; [reflexivity|discriminate].
Qed.

End ArchiveSpec.

(** ** The progress printer *)

Module ProgressSpec.
Import Progress.

(** The percentage of a read made during an export whose count fits. *)
Lemma percent_exact n p :
  100 * n <= maxInt ->
  total p = n -> 0 <= curr p <= n -> n <> 0 ->
  percent p = curr p * 100 / n /\ 0 <= percent p <= 100 /\
  (percent p = 100 <-> curr p = n).
Proof.
  intros Hfit Ht Hc Hn. unfold percent. rewrite Ht.
  assert (Hq : 0 <= curr p * 100 / n <= 100).
  { split; [apply Z.div_pos; lia|].
    apply Z.div_le_upper_bound; lia. }
  rewrite (wrapInt_small (curr p * 100)) by (unfold maxInt in *; lia).
  rewrite Z.quot_div_nonneg by lia.
  rewrite wrapInt_small by (unfold maxInt in *; lia).
  split; [reflexivity|]. split; [exact Hq|]. split.
  - intros H100.
    pose proof (Z.mul_div_le (curr p * 100) n ltac:(lia)) as Hle.
    rewrite H100 in Hle. lia.
  - intros Heq. rewrite Heq, Z.mul_comm. apply Z.div_mul. lia.
Qed.

Lemma percent_mono n p q :
  100 * n <= maxInt -> n <> 0 ->
  total p = n -> total q = n -> 0 <= curr p <= curr q -> curr q <= n ->
  percent p <= percent q.
Proof.
  intros Hfit Hn Hp Hq Hc Hcq.
  destruct (percent_exact n p Hfit Hp ltac:(lia) Hn) as [-> _].
  destruct (percent_exact n q Hfit Hq ltac:(lia) Hn) as [-> _].
  apply Z.div_le_mono; lia.
Qed.

(** The printer over reads made in order during one export. *)
Lemma start_in_export n passes : forall complete lo,
  100 * n <= maxInt ->
  0 <= lo ->
  Forall (fun p => inExport n (seen p)) passes ->
  StronglySorted (fun p q => ahead (seen p) (seen q)) passes ->
  (forall p, In p passes -> total (seen p) <> 0 -> lo <= percent (seen p)) ->
  let out := start complete passes in
  Forall (fun x => lo <= x <= 100) (fst out) /\
  StronglySorted Z.le (fst out) /\
  (In 100 (fst out) -> snd out = true /\ last (fst out) = Some 100).
Proof.
  induction passes as [|p rest IH]; intros complete lo Hfit Hlo Hin Hsort Hlow.
  { cbn. split; [constructor|]. split; [constructor|]. intros []. }
  apply Forall_cons in Hin as [Hp Hin].
  apply StronglySorted_inv in Hsort as [Hsort Hahead].
  cbn [start].
  destruct (Z.eqb_spec (total (seen p)) 0) as [Hz|Hnz].
  - (* nothing is printed in this pass *)
    cbn [negb andb].
    destruct complete.
    { cbn. split; [constructor|]. split; [constructor|]. intros []. }
    specialize (IH (ctxDone p) lo Hfit Hlo Hin Hsort
                  (fun q Hq => Hlow q (or_intror Hq))).
    destruct (start (ctxDone p) rest) as [more exited]. cbn in *. exact IH.
  - destruct Hp as [Hp|[Ht Hc]]; [rewrite Hp in Hnz; cbn in Hnz; lia|].
    assert (Hn : n <> 0) by congruence.
    destruct (percent_exact n (seen p) Hfit Ht Hc Hn) as (_ & Hrange & H100).
    pose proof (Hlow p (or_introl eq_refl) Hnz) as Hlop.
    assert (Hone : Forall (fun x => lo <= x <= 100) [percent (seen p)] /\
                   StronglySorted Z.le [percent (seen p)] /\
                   (In 100 [percent (seen p)] ->
                    true = true /\ last [percent (seen p)] = Some 100)).
    { split; [repeat constructor; lia|]. split; [repeat constructor|].
      intros [<-|[]]. done. }
    cbn [negb andb].
    destruct complete; [exact Hone|].
    destruct (Z.eqb_spec (curr (seen p)) (total (seen p))) as [Heq|Hne]; [exact Hone|].
    clear Hone.
    assert (Hnext : forall q, In q rest -> total (seen q) <> 0 ->
                      percent (seen p) <= percent (seen q)).
    { intros q Hq Hqz.
      rewrite Forall_forall in Hahead, Hin.
      destruct (Hahead q ltac:(apply list_elem_of_In; exact Hq)) as [Hzero|[Htq Hcq]];
        [contradiction|].
      destruct (Hin q ltac:(apply list_elem_of_In; exact Hq)) as [Hq0|[_ Hqc]];
        [rewrite Hq0 in Hqz; cbn in Hqz; lia|].
      apply (percent_mono n); lia. }
    specialize (IH (ctxDone p) (percent (seen p)) Hfit ltac:(lia) Hin Hsort Hnext).
    destruct (start (ctxDone p) rest) as [more exited]. cbn [fst snd app] in *.
    destruct IH as (Hall & Hsorted & Hlast).
    split; [|split].
    + constructor; [lia|].
      eapply Forall_impl; [exact Hall|]. cbn. intros x Hx. lia.
    + constructor; [exact Hsorted|].
      eapply Forall_impl; [exact Hall|]. cbn. intros x Hx. lia.
    + intros [Hhead|Hmore].
      * exfalso. apply Hne. rewrite Ht. apply H100. exact Hhead.
      * destruct (Hlast Hmore) as [-> Hl]. split; [reflexivity|].
        destruct more as [|y more]; [destruct Hmore|]. exact Hl.
Qed.

Lemma seenAfter_updatesFrom n m k :
  seenAfter (Exporter.updatesFrom n 0 m) k =
  if (Nat.min k m =? 0)%nat then newUpdater
  else {| curr := Z.of_nat (Nat.min k m) - 1; total := n |}.
Proof.
  unfold seenAfter, Exporter.updatesFrom.
  rewrite firstn_map, take_seq.
  generalize (Nat.min k m). clear k m. intros k.
  destruct k as [|k]; [reflexivity|].
  rewrite seq_S, map_app, fold_left_app. cbn. unfold Update. f_equal. lia.
Qed.

(** X11: the percentages [export-db] prints during an export whose
    record count, times a hundred, fits the machine integer: each lies
    between 0 and 100, they never go down, and 100 is printed at most as
    the last one, after which the printing task has returned. *)
Theorem printer_percentages env (obs : list (nat * bool)) :
  100 * Z.of_nat (length (Exporter.rows env)) <= maxInt ->
  StronglySorted le (map fst obs) ->
  let out := printer (Exporter.progress env) obs in
  Forall (fun x => 0 <= x <= 100) (fst out) /\
  StronglySorted Z.le (fst out) /\
  (In 100 (fst out) -> snd out = true /\ last (fst out) = Some 100).
Proof.
  intros Hfit Hobs. unfold printer.
  set (n := Z.of_nat (length (Exporter.rows env))) in *.
  assert (Hshape : exists m, (m <= S (length (Exporter.rows env)))%nat /\
                     Exporter.progress env = Exporter.updatesFrom n 0 m).
  { destruct (ExporterSpec.export_progress_shape env ltac:(unfold maxInt in *; lia))
      as [Hnil|(j & Hj & Hup & _)].
    - exists 0%nat. split; [lia|exact Hnil].
    - exists (S j). split; [lia|exact Hup]. }
  destruct Hshape as (m & Hm & ->).
  apply (start_in_export n); [exact Hfit|lia| | |].
  - apply Forall_forall. intros p Hp. apply list_elem_of_In, in_map_iff in Hp
      as (o & <- & _). cbn [seen]. rewrite seenAfter_updatesFrom.
    destruct (Nat.min (fst o) m =? 0)%nat eqn:Hz; [left; reflexivity|right].
    apply Nat.eqb_neq in Hz. cbn. unfold n. lia.
  - induction obs as [|o obs IH]; [constructor|].
    cbn [map] in *. apply StronglySorted_inv in Hobs as [Hobs Hle].
    constructor; [apply IH; exact Hobs|].
    apply Forall_forall. intros p Hp. apply list_elem_of_In, in_map_iff in Hp
      as (o' & <- & Ho'). cbn [seen]. rewrite !seenAfter_updatesFrom.
    rewrite Forall_forall in Hle.
    specialize (Hle (fst o') ltac:(apply list_elem_of_In, in_map; exact Ho')).
    unfold ahead.
    destruct (Nat.min (fst o) m =? 0)%nat eqn:Hz; [left; reflexivity|right].
    apply Nat.eqb_neq in Hz.
    destruct (Nat.min (fst o') m =? 0)%nat eqn:Hz'; [apply Nat.eqb_eq in Hz'; lia|].
    cbn. split; [reflexivity|lia].
  - intros p Hp Hnz. apply in_map_iff in Hp as (o & <- & _). cbn [seen] in *.
    rewrite seenAfter_updatesFrom in *.
    destruct (Nat.min (fst o) m =? 0)%nat eqn:Hz; [cbn in Hnz; lia|].
    apply Nat.eqb_neq in Hz.
    eapply (percent_exact n); cbn; [exact Hfit|reflexivity| |exact Hnz].
    unfold n. lia.
Qed.

(** X12: the printing task stops one pass after the one that found the
    context done, whatever it reads and however many passes it is
    offered; and while the total it reads is zero, as it is throughout
    the export of an empty index, it prints nothing and returns only
    after the context is done. *)
Theorem printer_stops_after_cancel :
  (forall before p q rest,
     ctxDone p = true ->
     snd (start false (before ++ p :: q :: rest)) = true /\
     start false (before ++ p :: q :: rest) = start false (before ++ [p; q])) /\
  (forall passes,
     Forall (fun p => total (seen p) = 0) passes ->
     fst (start false passes) = [] /\
     (snd (start false passes) = true ->
      exists before p q rest,
        passes = before ++ p :: q :: rest /\ ctxDone p = true)).
Proof.
  split.
  - intros before p q rest Hp.
    assert (Hgen : forall complete,
              snd (start complete (before ++ p :: q :: rest)) = true /\
              start complete (before ++ p :: q :: rest)
                = start complete (before ++ [p; q])).
    { induction before as [|b before IH]; intros complete.
      - cbn [app start]. destruct complete; [done|].
        destruct (negb _ && _); [done|]. rewrite Hp. done.
      - cbn [app start]. destruct complete; [done|].
        destruct (negb _ && _); [done|].
        destruct (IH (ctxDone b)) as [Hs Heq]. rewrite Heq.
        rewrite Heq in Hs.
        destruct (start (ctxDone b) (before ++ [p; q])) as [more exited].
        done. }
    apply Hgen.
  - intros passes Hzero.
    assert (Hgen : forall complete,
              fst (start complete passes) = [] /\
              (snd (start complete passes) = true ->
               complete = true /\ passes <> [] \/
               exists before p q rest,
                 passes = before ++ p :: q :: rest /\ ctxDone p = true)).
    { induction Hzero as [|p passes Hp _ IH]; intros complete.
      - cbn. split; [reflexivity|discriminate].
      - cbn [start]. rewrite Hp. cbn [Z.eqb negb andb].
        destruct complete; [cbn; split; [reflexivity|left; done]|].
        destruct (IH (ctxDone p)) as [Hfst Hsnd].
        destruct (start (ctxDone p) passes) as [more exited]. cbn in *.
        split; [exact Hfst|]. intros He. right.
        destruct (Hsnd He) as [[Hd Hne]|(before & p' & q & rest & -> & Hd)].
        + destruct passes as [|q rest]; [done|].
          exists [], p, q, rest. done.
        + exists (p :: before), p', q, rest. done. }
    destruct (Hgen false) as [Hfst Hsnd]. split; [exact Hfst|].
    intros He. destruct (Hsnd He) as [[Hd _]|H]; [discriminate|exact H].
Qed.

End ProgressSpec.

(** ** More on the two entry points *)

Module DirectorySpec.
Import Repair RepairSpec Directory.

Section Run.

Variable w : World.
Variable d : Dir.

Abbreviation log s := (trace (fx s)).

#[local] Hint Rewrite updatesOf_snoc addsOf_snoc sentFiles_snoc sentErrs_snoc
  countEv_snoc : log.

Ltac expand_step :=
  unfold step, stepMain, stepWalk, selectFiles, selectErr, selectDone, ctxErrOf,
    NewDefaultManifest, AddM, StoreM, Add, Store, lift, gets, modify, check,
    bind, ret, fail, record, emit, setMan, setMain, setWalk, setErr, setFx,
    closeErrC, closeFilesC, cancel in *;
  cbn [mainPC walkPC err fx errClosed filesClosed cancelled man trace fst snd] in *.

Ltac split_step :=
  repeat (expand_step;
          match goal with
          | |- context [match ?x with _ => _ end] =>
              lazymatch x with
              | context [match _ with _ => _ end] => fail
              | _ => first [is_var x; destruct x | destruct x eqn:?]
              end
          end);
  expand_step.

Lemma reachable_step s c : reachable w d s -> reachable w d (step w d s c).
Proof.
  intros [sched ->]. exists (sched ++ [c]). rewrite fold_left_app. reflexivity.
Qed.

Lemma reachable_run sched : forall s,
  reachable w d s -> reachable w d (fold_left (step w d) sched s).
Proof.
  induction sched as [|c sched IH]; intros s Hs; [exact Hs|].
  cbn. apply IH, reachable_step, Hs.
Qed.



Lemma errorDelivered_step s c :
  reachable w d s -> errorDelivered s -> errorDelivered (step w d s c).
Proof.
  intros Hreach.
  destruct (invariants w d s Hreach) as (_ & _ & _ & Hret).
  destruct s as [mp wp er [m tr] ec fc cn].
  unfold returns in Hret. unfold errorDelivered at 1.
  cbn [mainPC walkPC err fx errClosed filesClosed cancelled man trace] in *.
  destruct (sentErrs tr) as [|e0 sent] eqn:Hsent; intros H.
  - (* no error was received so far *)
    destruct c; [destruct mp|destruct wp as [|[|v rest]| | | | | | |]
                |destruct mp; [| | | |destruct wp| | |]
                |destruct mp; [| | | |destruct wp| | |]
                |destruct mp|destruct cn];
      split_step; unfold errorDelivered;
      cbn [mainPC fx trace]; read_log; rewrite ?Hsent; cbn [app]; try exact I.
    split; [reflexivity|]. destruct Hret as [-> _]. reflexivity.
  - (* the call has returned the error it received *)
    destruct H as [-> Hstore].
    destruct c; [|destruct wp as [|[|v rest]| | | | | | |]| | | |destruct cn];
      split_step; unfold errorDelivered;
      cbn [mainPC fx trace]; read_log; rewrite ?Hsent; cbn [app];
      split; (reflexivity || lia).
Qed.

Lemma errorDelivered_reachable s : reachable w d s -> errorDelivered s.
Proof.
  revert s. apply (reachable_ind_step w d errorDelivered).
  - exact I.
  - intros s c Hreach Hs. apply errorDelivered_step; assumption.
Qed.

Lemma manifestPaths_step s c :
  reachable w d s -> manifestPaths s -> manifestPaths (step w d s c).
Proof.
  intros Hreach.
  destruct (invariants w d s Hreach) as (_ & _ & (hs & _ & Hmain) & _).
  destruct s as [mp wp er [m tr] ec fc cn].
  unfold manifestPaths at 1.
  cbn [mainPC walkPC err fx errClosed filesClosed cancelled man trace] in *.
  intros H.
  destruct c; [destruct mp as [| | | | |f| |ref oe]
              |destruct wp as [|[|v rest]| | | | | | |]
              |destruct mp; [| | | |destruct wp| | |]
              |destruct mp; [| | | |destruct wp| | |]
              |destruct mp|destruct cn];
    split_step; unfold manifestPaths; cbn [fx man trace]; intros p Hp; read_log;
    try (apply H; exact Hp).
  - rewrite lookup_empty in Hp. destruct Hp as [? [=]].
  - destruct (decide (p = RootPath)) as [->|Hne]; [left; reflexivity|].
    rewrite lookup_insert_ne in Hp by congruence. apply H, Hp.
  - destruct (decide (p = filepath f)) as [->|Hne].
    + right. destruct Hmain as (-> & _). rewrite map_app.
      apply in_or_app. right. left. reflexivity.
    + rewrite lookup_insert_ne in Hp by congruence. apply H, Hp.
  - destruct (H p Hp) as [Hr|Hin]; [left; exact Hr|right].
    rewrite map_app. apply in_or_app. left. exact Hin.
Qed.

Lemma manifestPaths_reachable s : reachable w d s -> manifestPaths s.
Proof.
  revert s. apply (reachable_ind_step w d manifestPaths).
  - intros p Hp. cbn in Hp. rewrite lookup_empty in Hp. destruct Hp as [? [=]].
  - intros s c Hreach Hs. apply manifestPaths_step; assumption.
Qed.

End Run.



(** X15: the manifest is stored at most once, and only after the walk
    task has closed a channel: every entry the walk sends has then been
    received and announced, no error was received, and the call has
    returned what [Store] returned, the zero reference when it failed. *)
Theorem store_follows_walk w addr d sched :
  loadOldDirectory w addr = Ok d ->
  let s := DirectoryRepair w addr sched in
  countEv isStore (trace (fx s)) <> 0%nat ->
  countEv isStore (trace (fx s)) = 1%nat /\
  (errClosed s = true \/ filesClosed s = true) /\
  sentFiles (trace (fx s)) = fst (walkRun w (node d) (walkVisits (node d))) /\
  updatesOf (trace (fx s)) = map updMsg (sentFiles (trace (fx s))) /\
  sentErrs (trace (fx s)) = [] /\
  returned s = Some (storeOutcome (Store w (man (fx s)))).
Proof.
  intros Hload s Hstore.
  assert (Hreach : reachable w d s) by (apply DirectoryRepair_reachable, Hload).
  destruct (invariants w d s Hreach)
    as (Hwalk & (_ & _ & _ & _ & Hch) & (hs & Hup & Hmain) & Hret).
  pose proof (errorDelivered_reachable w d s Hreach) as Hdel.
  unfold returns, returned, walkProgress, errorDelivered in *.
  destruct (mainPC s) as [| | | | |f| |ref oe];
    try (destruct Hret as [Hzero _]; contradiction).
  destruct Hret as (_ & Hle & _ & Hone & _).
  assert (H1 : countEv isStore (trace (fx s)) = 1%nat) by lia.
  destruct (Hone H1) as [Hout Hclosed].
  assert (Hsent : sentFiles (trace (fx s)) = hs).
  { destruct oe; destruct Hmain as [Hs _]; exact Hs. }
  split; [exact H1|]. split; [exact Hclosed|].
  split; [|split; [rewrite Hsent; exact Hup|split; [|rewrite Hout; reflexivity]]].
  - destruct (walkPC s); try tauto;
      destruct Hch as (He & Hf & _); rewrite He, Hf in Hclosed;
      destruct Hclosed; discriminate.
  - destruct (sentErrs (trace (fx s))); [reflexivity|].
    destruct Hdel as [_ Hzero]. lia.
Qed.

(** The paths of the manifest, and the entries received as the first
    entries of the walk. *)
Lemma manifest_paths_and_prefix w d s :
  reachable w d s ->
  manifestPaths s /\
  exists later,
    fst (walkRun w (node d) (walkVisits (node d))) = sentFiles (trace (fx s)) ++ later.
Proof.
  intros Hreach. split; [exact (manifestPaths_reachable w d s Hreach)|].
  destruct (invariants w d s Hreach) as (Hwalk & _).
  unfold walkProgress, script in Hwalk.
  destruct (walkPC s) as [|rest|f rest|r| | | | |].
  - destruct Hwalk.
  - destruct Hwalk as [<- _]. eexists. reflexivity.
  - destruct Hwalk as [<- _]. eexists. reflexivity.
  - destruct Hwalk as [<- _]. exists []. rewrite app_nil_r. reflexivity.
  - rewrite <- Hwalk. exists []. rewrite app_nil_r. reflexivity.
  - rewrite <- Hwalk. exists []. rewrite app_nil_r. reflexivity.
  - rewrite <- Hwalk. exists []. rewrite app_nil_r. reflexivity.
  - rewrite <- Hwalk. exists []. rewrite app_nil_r. reflexivity.
  - rewrite <- Hwalk. exists []. rewrite app_nil_r. reflexivity.
Qed.

(** X16: the manifest under construction never holds a path other than
    the root path and the paths of entries the walk has sent, and these
    are, in order, the first entries of what the walk of the legacy tree
    sends. *)
Theorem manifest_holds_delivered_paths w addr d sched :
  loadOldDirectory w addr = Ok d ->
  let s := DirectoryRepair w addr sched in
  (forall p, is_Some (man (fx s) !! p) ->
     p = RootPath \/ In p (map filepath (sentFiles (trace (fx s))))) /\
  exists later,
    fst (walkRun w (node d) (walkVisits (node d))) = sentFiles (trace (fx s)) ++ later.
Proof.
  intros Hload s.
  apply (manifest_paths_and_prefix w d s), DirectoryRepair_reachable, Hload.
Qed.

(** X17: the effects of [FileRepair] occur in a fixed order and stop at
    the first failure: nothing when the legacy entry cannot be read;
    otherwise the progress notification first, then the [Add] of the
    root path, the [Add] of the file and the [Store], of which all four
    were made when the call returns no error. *)
Theorem FileRepair_effects_in_order w addr :
  match getOldFileEntry w addr with
  | Err err =>
      FileRepair w addr = (noEffects, (ZeroAddress, Some err))
  | Ok oldEntry =>
      exists k, (1 <= k <= 4)%nat /\
        trace (fst (FileRepair w addr)) = take k (fileRepairEffects oldEntry) /\
        (snd (snd (FileRepair w addr)) = None -> k = 4%nat)
  end.
Proof.
  unfold FileRepair, orReturn, andThen, returning, lift.
  destruct (getOldFileEntry w addr) as [oldEntry|err]; [|reflexivity].
  unfold NewDefaultManifest, AddM, StoreM, bind, check, modify, gets, lift, ret, fail.
  destruct (newManifestErr w) as [e0|]; cbn.
  { exists 1%nat. split; [lia|]. split; [reflexivity|discriminate]. }
  unfold Add. cbn. rewrite lookup_empty.
  destruct (persistErr w ∅ RootPath _) as [e1|]; cbn.
  { exists 2%nat. split; [lia|]. split; [reflexivity|discriminate]. }
  destruct (_ !! Filename (mtdt oldEntry)) as [dup|]; cbn.
  { exists 3%nat. split; [lia|]. split; [reflexivity|discriminate]. }
  destruct (persistErr w _ (Filename (mtdt oldEntry)) _) as [e2|]; cbn.
  { exists 3%nat. split; [lia|]. split; [reflexivity|discriminate]. }
  exists 4%nat. split; [lia|]. split; [|reflexivity].
  unfold Store. destruct (saveManifest w _); reflexivity.
Qed.

(** X18: a walk task that is waiting to send when the call returns is
    never served: whatever is scheduled afterwards, the call's result
    stands, the task is where it was and neither channel is ever closed. *)
Theorem abandoned_walk_task_waits_for_ever w addr d sched more :
  loadOldDirectory w addr = Ok d ->
  let s := DirectoryRepair w addr sched in
  let s' := DirectoryRepair w addr (sched ++ more) in
  returned s <> None ->
  (exists f rest, walkPC s = WSend f rest) \/ (exists err, walkPC s = WSendErr err) ->
  returned s' = returned s /\
  walkPC s' = walkPC s /\
  countEv isCloseErrC (trace (fx s')) = 0%nat /\
  countEv isCloseFilesC (trace (fx s')) = 0%nat.
Proof.
  intros Hload s s' Hret Hwait.
  assert (Hs' : s' = fold_left (step w d) more s).
  { unfold s', s, DirectoryRepair. rewrite Hload. apply fold_left_app. }
  assert (Hmain : exists ref oe, mainPC s = MReturn ref oe).
  { unfold returned in Hret. destruct (mainPC s); try contradiction. eauto. }
  destruct (walk_blocked_after_return w d more s Hmain Hwait)
    as (Hm & Hw & _ & _).
  rewrite <- Hs' in Hm, Hw.
  split; [unfold returned; rewrite Hm; reflexivity|]. split; [exact Hw|].
  destruct (invariants w d s' (DirectoryRepair_reachable _ _ _ (sched ++ more) Hload))
    as (_ & (_ & -> & -> & _ & Hch) & _).
  rewrite Hw in Hch.
  destruct Hwait as [(f & rest & Hpc)|(err & Hpc)]; rewrite Hpc in Hch;
    destruct Hch as (-> & -> & _); done.
Qed.

(** X19: an entry record of more than [limitMetadataLength] bytes stops
    [FileRepair] before it has done anything: the call returns the zero
    reference and the overflow error of the limiting writer, and has
    made no notification, no [Add] and no [Store]. *)
Theorem oversized_entry_stops_FileRepair w addr j :
  joinerNew w addr = Ok j ->
  (forall err, ~ In (ReadFail err) j) ->
  (limitMetadataLength < joinerSize j)%nat ->
  FileRepair w addr = (noEffects, (ZeroAddress, Some ErrOverflow)).
Proof.
  intros Hj Hno Hbig. unfold FileRepair, orReturn, lift.
  rewrite (oversized_entry_is_refused w addr j Hj Hno Hbig). reflexivity.
Qed.

(** X20: when [Walk] reports no error, the manifest that a successful
    [DirectoryRepair] has stored is the legacy tree: its reference is the
    one returned, it holds every leaf path with the content reference,
    file name and MIME type of the leaf's legacy records, and no path
    besides these and the root path; one notification was made per
    leaf. *)
Theorem stored_manifest_is_the_legacy_tree w addr d sched ref :
  loadOldDirectory w addr = Ok d ->
  snd (walkRun w (node d) (walkVisits (node d))) = None ->
  let s := DirectoryRepair w addr sched in
  returned s = Some (ref, None) ->
  Store w (man (fx s)) = Ok ref /\
  Forall (migrated w (node d) (man (fx s))) (leaves (node d)) /\
  (forall p, is_Some (man (fx s) !! p) ->
     p = RootPath \/ In p (map vPath (leaves (node d)))) /\
  length (updatesOf (trace (fx s))) = length (leaves (node d)).
Proof.
  intros Hload Hwalk s Hret.
  destruct (success_handles_walk w addr d sched ref Hload Hret)
    as (Hsent & Hup & Hman & Hstore).
  fold s in Hsent, Hup, Hman, Hstore.
  pose proof (walkRun_complete w (node d) (walkVisits (node d)) Hwalk) as Hall.
  rewrite <- Hsent in Hall. fold (leaves (node d)) in Hall.
  assert (Hpaths : map filepath (sentFiles (trace (fx s)))
                   = map vPath (leaves (node d))).
  { clear -Hall. induction Hall as [|f v fs vs [Hp _] _ IH]; [reflexivity|].
    cbn. rewrite Hp, IH. reflexivity. }
  split; [exact Hstore|]. split; [apply (inManifest_migrated _ _ _ _ _ Hall Hman)|].
  split.
  - intros p Hp. rewrite <- Hpaths.
    apply (manifestPaths_reachable w d s (DirectoryRepair_reachable _ _ _ sched Hload)).
    exact Hp.
  - rewrite Hup, length_map. apply (Forall2_length _ _ _ Hall).
Qed.

(** The entries a walk sends when the walk function fails at a visit:
    they belong, one to one and in order, to leaves visited before it. *)
Lemma walkRun_stops w n v vs2 e : forall vs1,
  walkFn w n v = Err e ->
  exists ls rest,
    List.filter isLeaf vs1 = ls ++ rest /\
    Forall2 (entryOfLeaf w n) (fst (walkRun w n (vs1 ++ v :: vs2))) ls /\
    snd (walkRun w n (vs1 ++ v :: vs2)) <> None.
Proof.
  intros vs1 Hv. induction vs1 as [|u vs1 IH]; cbn [app walkRun List.filter].
  - rewrite Hv. exists [], []. cbn. repeat split; [constructor|discriminate].
  - destruct IH as (ls & rest & Hsplit & Hall & Herr).
    destruct (walkFn w n u) as [[f|]|err] eqn:Hu.
    + apply walkFn_leaf in Hu as [-> Hf].
      destruct (walkRun w n (vs1 ++ v :: vs2)) as [fs r]. cbn in *.
      exists (u :: ls), rest. rewrite Hsplit.
      repeat split; [constructor; assumption|exact Herr].
    + rewrite (walkFn_dir _ _ _ Hu). exists ls, rest. done.
    + exists [], (if isLeaf u then u :: List.filter isLeaf vs1
                  else List.filter isLeaf vs1).
      cbn. repeat split; [constructor|discriminate].
Qed.

(** X22: once the walk function fails at a visit, no file visited later
    is migrated: whatever the schedule, and whether the call then fails
    or not, the entries received, and with them the notifications, and
    the paths of the manifest besides the root path, all belong to leaves
    visited before the failing visit. *)
Theorem walk_stops_at_first_failure w addr d vs1 v vs2 e sched :
  loadOldDirectory w addr = Ok d ->
  walkVisits (node d) = vs1 ++ v :: vs2 ->
  walkFn w (node d) v = Err e ->
  let s := DirectoryRepair w addr sched in
  let before := map vPath (List.filter isLeaf vs1) in
  (forall p, In p (map filepath (sentFiles (trace (fx s)))) -> In p before) /\
  (forall p, is_Some (man (fx s) !! p) -> p = RootPath \/ In p before) /\
  (length (updatesOf (trace (fx s))) <= length before)%nat.
Proof.
  intros Hload Hvisits Hv s before.
  assert (Hreach : reachable w d s) by (apply DirectoryRepair_reachable, Hload).
  destruct (manifest_paths_and_prefix w d s Hreach) as [Hpaths (later & Hlater)].
  destruct (walkRun_stops w (node d) v vs2 e vs1 Hv) as (ls & rest & Hsplit & Hall & _).
  rewrite <- Hvisits, Hlater in Hall.
  apply Forall2_app_inv_l in Hall as (ls1 & ls2 & Hsent & _ & ->).
  assert (Hmap : map filepath (sentFiles (trace (fx s))) = map vPath ls1).
  { clear -Hsent. induction Hsent as [|f u fs us [Hp _] _ IH]; [reflexivity|].
    cbn. rewrite Hp, IH. reflexivity. }
  assert (Hin : forall p, In p (map filepath (sentFiles (trace (fx s)))) -> In p before).
  { intros p Hp. unfold before. rewrite Hsplit, !map_app, <- Hmap.
    apply in_or_app. left. apply in_or_app. left. exact Hp. }
  split; [exact Hin|]. split.
  - intros p Hp. destruct (Hpaths p Hp) as [Hr|Hs]; [left; exact Hr|right; auto].
  - destruct (invariants w d s Hreach) as (_ & _ & (hs & Hup & Hmain) & _).
    rewrite Hup, length_map. unfold before.
    rewrite Hsplit, length_map, !length_app, <- (length_map vPath ls1), <- Hmap, length_map.
    destruct (mainPC s) as [| | | | |f| |ref [e0|]];
      try (destruct Hmain as (-> & -> & _); cbn; lia);
      try (destruct Hmain as (-> & _); rewrite ?length_app; cbn; lia).
Qed.

End DirectorySpec.

(** ** More properties on the worked environments *)

Module MoreExporterScenarios.
Import Exporter ExporterExamples MoreExporterExamples.

Lemma index_row_round_trip_witness :
  RetrievalIndex.wellTyped row /\
  RetrievalIndex.DecodeValue (RetrievalIndex.EncodeValue row)
    = Some {| Address := []; Data := [x68; x69];
              StoreTimestamp := 1614556800; BinID := 1 |}.
Proof.
  assert (Hrow : RetrievalIndex.wellTyped row)
    by (unfold RetrievalIndex.wellTyped; simpl; lia).
  split; [exact Hrow|].
  apply (RetrievalIndexSpec.index_row_round_trip row Hrow).
Defined.

Lemma stored_value_round_trip_witness :
  (16 <= length storedValue)%nat /\
  exists fields,
    RetrievalIndex.DecodeValue storedValue = Some fields /\
    RetrievalIndex.wellTyped fields /\
    RetrievalIndex.EncodeValue fields = storedValue.
Proof.
  assert (Hlen : (16 <= length storedValue)%nat) by (simpl; lia).
  split; [exact Hlen|].
  apply (RetrievalIndexSpec.stored_value_round_trip storedValue Hlen).
Defined.

Lemma exporter_options_compose_witness :
  openErr twoRowEnv = None /\
  exists e,
    ExporterOptions.newExporter twoRowEnv
      ([ExporterOptions.WithDestinationFilename "a.tar"]
         ++ [ExporterOptions.WithDestinationFilename ""]) = Ok e /\
    ExporterOptions.dstFile e = DefaultExportFilename.
Proof.
  split; [reflexivity|].
  apply (proj1 (OptionsSpec.exporter_options_compose twoRowEnv
                  [ExporterOptions.WithDestinationFilename "a.tar"] eq_refl) "").
Defined.

Lemma exportDB_reports_flag_witness :
  let out := ExporterOptions.exportDB twoRowEnv "" (ExporterOptions.clientUpdater 0) in
  out = (fst out, Ok "Exported database to ") /\
  ExporterOptions.created (fst out) = Some DefaultExportFilename.
Proof.
  cbv zeta. split; [vm_compute; reflexivity|].
  apply (OptionsSpec.exportDB_reports_flag twoRowEnv ""
           (ExporterOptions.clientUpdater 0)
           (fst (ExporterOptions.exportDB twoRowEnv ""
                   (ExporterOptions.clientUpdater 0)))
           "Exported database to ").
  vm_compute. reflexivity.
Defined.

Lemma twoRows_distinct : NoDup (map Address twoRows).
Proof.
  simpl. apply NoDup_cons. split.
  - intros Hin. apply list_elem_of_In in Hin. destruct Hin as [H|[]]. discriminate H.
  - apply NoDup_singleton.
Qed.

Lemma export_entry_names_distinct_witness :
  exportErr twoRowEnv = None /\
  NoDup (map Address (rows twoRowEnv)) /\
  NoDup (map (fun en => Name (hdr en)) (archive twoRowEnv)).
Proof.
  split; [reflexivity|]. split; [exact twoRows_distinct|].
  apply (ArchiveSpec.export_entry_names_distinct twoRowEnv eq_refl twoRows_distinct).
Defined.

Lemma putOrder_distinct : NoDup (map Address putOrder).
Proof.
  simpl. apply NoDup_cons. split.
  - intros Hin. apply list_elem_of_In in Hin. destruct Hin as [H|[]]. discriminate H.
  - apply NoDup_singleton.
Qed.

Lemma verifyTar_accepts_export_witness :
  exportErr twoRowEnv = None /\
  Permutation (rows twoRowEnv) putOrder /\
  NoDup (map Address putOrder) /\
  ExporterTest.verifyTar (archive twoRowEnv) (ExporterTest.chunkMapOf putOrder) = Ok tt.
Proof.
  assert (Hperm : Permutation (rows twoRowEnv) putOrder) by apply perm_swap.
  split; [reflexivity|]. split; [exact Hperm|]. split; [exact putOrder_distinct|].
  apply (ArchiveSpec.verifyTar_accepts_export twoRowEnv putOrder eq_refl Hperm
           putOrder_distinct).
Defined.

Lemma checkUpdater_accepts_export_witness :
  Z.of_nat (length (rows twoRowEnv)) <= maxInt /\
  exists prev,
    ExporterTest.checkUpdater 0 (progress twoRowEnv) = Ok prev /\
    0 <= prev <= Z.of_nat (length (rows twoRowEnv)) /\
    (exportErr twoRowEnv = None -> prev = Z.of_nat (length (rows twoRowEnv))).
Proof.
  assert (Hfit : Z.of_nat (length (rows twoRowEnv)) <= maxInt)
    by (unfold maxInt; simpl; lia).
  split; [exact Hfit|].
  apply (ArchiveSpec.checkUpdater_accepts_export twoRowEnv Hfit).
Defined.

Lemma failed_export_leaves_prefix_witness :
  exportErr diskFullEnv = Some "no space left on device" /\
  ((exportErr diskFullEnv <> None /\ progress diskFullEnv = [] /\
    (archive diskFullEnv = [] \/
     exists k, archive diskFullEnv = [ExporterTest.cutShort k versionEntry])) \/
   (exists j tail,
      (j <= length (rows diskFullEnv))%nat /\
      archive diskFullEnv
        = versionEntry :: map chunkEntry (take j (rows diskFullEnv)) ++ tail /\
      length (progress diskFullEnv) = S j /\
      (tail = [] \/
       exportErr diskFullEnv <> None /\
       exists item k, rows diskFullEnv !! j = Some item /\
                      tail = [ExporterTest.cutShort k (chunkEntry item)]) /\
      (exportErr diskFullEnv = None -> j = length (rows diskFullEnv) /\ tail = []))).
Proof.
  split; [reflexivity|].
  apply (ArchiveSpec.failed_export_leaves_prefix diskFullEnv).
Defined.

Lemma looks_in_order : StronglySorted le (map fst looks).
Proof.
  simpl. repeat (constructor; [|repeat constructor; lia]). constructor.
Qed.

Lemma printer_percentages_witness :
  100 * Z.of_nat (length (rows twoRowEnv)) <= maxInt /\
  StronglySorted le (map fst looks) /\
  let out := Progress.printer (progress twoRowEnv) looks in
  Forall (fun x => 0 <= x <= 100) (fst out) /\
  StronglySorted Z.le (fst out) /\
  (In 100 (fst out) -> snd out = true /\ last (fst out) = Some 100).
Proof.
  assert (Hfit : 100 * Z.of_nat (length (rows twoRowEnv)) <= maxInt)
    by (unfold maxInt; simpl; lia).
  split; [exact Hfit|]. split; [exact looks_in_order|].
  apply (ProgressSpec.printer_percentages twoRowEnv looks Hfit looks_in_order).
Defined.

Lemma printer_stops_after_cancel_witness :
  Progress.ctxDone (idlePass true) = true /\
  snd (Progress.start false
         ([idlePass false] ++ idlePass true :: idlePass false :: [idlePass false]))
    = true.
Proof.
  split; [reflexivity|].
  apply (proj1 ProgressSpec.printer_stops_after_cancel
           [idlePass false] (idlePass true) (idlePass false) [idlePass false] eq_refl).
Defined.

Lemma verifyTar_sound_not_complete_witness :
  ExporterTest.verifyTar (archive twoRowEnv) (ExporterTest.chunkMapOf putOrder) = Ok tt /\
  sublist [versionEntry] (archive twoRowEnv) /\
  ExporterTest.verifyTar [versionEntry] (ExporterTest.chunkMapOf putOrder) = Ok tt.
Proof.
  assert (Hok : ExporterTest.verifyTar (archive twoRowEnv)
                  (ExporterTest.chunkMapOf putOrder) = Ok tt)
    by (vm_compute; reflexivity).
  assert (Hsub : sublist [versionEntry] (archive twoRowEnv))
    by (apply sublist_skip, sublist_nil_l).
  split; [exact Hok|]. split; [exact Hsub|].
  apply (proj2 (ArchiveSpec.verifyTar_sound_not_complete (archive twoRowEnv)
                  (ExporterTest.chunkMapOf putOrder) Hok) [versionEntry] Hsub).
Defined.

End MoreExporterScenarios.

Module MoreScenarios.
Import Repair Examples MoreExamples.


Lemma store_follows_walk_witness :
  loadOldDirectory dirWorld (at32 xd0) = Ok dirLoaded /\
  let s := DirectoryRepair dirWorld (at32 xd0) dirSchedule in
  countEv isStore (trace (fx s)) <> 0%nat /\
  sentFiles (trace (fx s))
    = fst (walkRun dirWorld (node dirLoaded) (walkVisits (node dirLoaded))) /\
  returned s = Some (storeOutcome (Store dirWorld (man (fx s)))).
Proof.
  split; [reflexivity|]. cbv zeta.
  assert (Hstore : countEv isStore
                     (trace (fx (DirectoryRepair dirWorld (at32 xd0) dirSchedule)))
                   <> 0%nat) by (vm_compute; discriminate).
  split; [exact Hstore|].
  destruct (DirectorySpec.store_follows_walk dirWorld (at32 xd0) dirLoaded dirSchedule
              eq_refl Hstore) as (_ & _ & Hsent & _ & _ & Hret).
  split; [exact Hsent|exact Hret].
Defined.

Lemma manifest_holds_delivered_paths_witness :
  loadOldDirectory dirWorld (at32 xd0) = Ok dirLoaded /\
  let s := DirectoryRepair dirWorld (at32 xd0) dirSchedule in
  forall p, is_Some (man (fx s) !! p) ->
    p = RootPath \/ In p (map filepath (sentFiles (trace (fx s)))).
Proof.
  split; [reflexivity|].
  apply (proj1 (DirectorySpec.manifest_holds_delivered_paths dirWorld (at32 xd0)
                  dirLoaded dirSchedule eq_refl)).
Defined.

Lemma FileRepair_effects_in_order_witness :
  exists oldEntry,
    getOldFileEntry simpleWorld (at32 x01) = Ok oldEntry /\
    trace (fst (FileRepair simpleWorld (at32 x01)))
      = Directory.fileRepairEffects oldEntry.
Proof.
  pose proof (DirectorySpec.FileRepair_effects_in_order simpleWorld (at32 x01)) as H.
  destruct (getOldFileEntry simpleWorld (at32 x01)) as [oldEntry|err] eqn:Hold.
  - exists oldEntry. split; [reflexivity|].
    destruct H as (k & _ & Htrace & Hk).
    rewrite Htrace, (Hk ltac:(vm_compute; reflexivity)). reflexivity.
  - exfalso. vm_compute in Hold. discriminate Hold.
Defined.

Lemma abandoned_walk_task_waits_for_ever_witness :
  loadOldDirectory oneFileWorld (at32 xd0) = Ok dirLoadedOne /\
  let s := DirectoryRepair oneFileWorld (at32 xd0) abandonSchedule in
  let s' := DirectoryRepair oneFileWorld (at32 xd0)
              (abandonSchedule ++ [RunWalk; SelFiles; SelErr; RunMain; RunWalk]) in
  returned s = Some (ZeroAddress, Some "context canceled") /\
  (exists f rest, walkPC s = WSend f rest) /\
  returned s' = returned s /\
  walkPC s' = walkPC s /\
  countEv isCloseErrC (trace (fx s')) = 0%nat /\
  countEv isCloseFilesC (trace (fx s')) = 0%nat.
Proof.
  split; [reflexivity|]. cbv zeta.
  assert (Hwait : exists f rest,
            walkPC (DirectoryRepair oneFileWorld (at32 xd0) abandonSchedule)
            = WSend f rest) by (eexists _, _; vm_compute; reflexivity).
  split; [vm_compute; reflexivity|]. split; [exact Hwait|].
  apply (DirectorySpec.abandoned_walk_task_waits_for_ever oneFileWorld (at32 xd0)
           dirLoadedOne abandonSchedule [RunWalk; SelFiles; SelErr; RunMain; RunWalk]
           eq_refl).
  - vm_compute. discriminate.
  - left. exact Hwait.
Defined.

Lemma oversized_entry_stops_FileRepair_witness :
  joinerNew hugeWorld (at32 x01) = Ok (joinerOf hugeEntry) /\
  (limitMetadataLength < joinerSize (joinerOf hugeEntry))%nat /\
  FileRepair hugeWorld (at32 x01) = (noEffects, (ZeroAddress, Some ErrOverflow)).
Proof.
  assert (Hbig : (limitMetadataLength < joinerSize (joinerOf hugeEntry))%nat)
    by (vm_compute; lia).
  split; [reflexivity|]. split; [exact Hbig|].
  apply (DirectorySpec.oversized_entry_stops_FileRepair hugeWorld (at32 x01)
           (joinerOf hugeEntry) eq_refl); [|exact Hbig].
  intros err Hin. vm_compute in Hin. destruct Hin as [H|[H|[]]]; discriminate H.
Defined.

Lemma stored_manifest_is_the_legacy_tree_witness :
  loadOldDirectory dirWorld (at32 xd0) = Ok dirLoaded /\
  snd (walkRun dirWorld (node dirLoaded) (walkVisits (node dirLoaded))) = None /\
  let s := DirectoryRepair dirWorld (at32 xd0) dirSchedule in
  returned s = Some (newManifestAddress, None) /\
  Forall (migrated dirWorld (node dirLoaded) (man (fx s))) (leaves (node dirLoaded)) /\
  (forall p, is_Some (man (fx s) !! p) ->
     p = RootPath \/ In p (map vPath (leaves (node dirLoaded)))).
Proof.
  assert (Hwalk : snd (walkRun dirWorld (node dirLoaded) (walkVisits (node dirLoaded)))
                  = None) by (vm_compute; reflexivity).
  assert (Hret : returned (DirectoryRepair dirWorld (at32 xd0) dirSchedule)
                 = Some (newManifestAddress, None)) by (vm_compute; reflexivity).
  split; [reflexivity|]. split; [exact Hwalk|]. cbv zeta. split; [exact Hret|].
  destruct (DirectorySpec.stored_manifest_is_the_legacy_tree dirWorld (at32 xd0)
              dirLoaded dirSchedule newManifestAddress eq_refl Hwalk Hret)
    as (_ & Hall & Hpaths & _).
  split; [exact Hall|exact Hpaths].
Defined.

Lemma walk_stops_at_first_failure_witness :
  loadOldDirectory brokenWorld (at32 xd0) = Ok dirLoadedOne /\
  walkVisits (node dirLoadedOne) = [visitDir ""; visitDir "/"] ++ visitFile "a.txt" :: [] /\
  walkFn brokenWorld (node dirLoadedOne) (visitFile "a.txt") = Err "storage: not found" /\
  let s := DirectoryRepair brokenWorld (at32 xd0) raceSchedule in
  returned s = Some (newManifestAddress, None) /\
  (forall p, is_Some (man (fx s) !! p) -> p = RootPath \/ In p []) /\
  (length (updatesOf (trace (fx s))) <= 0)%nat.
Proof.
  split; [reflexivity|]. split; [reflexivity|]. split; [reflexivity|].
  cbv zeta. split; [vm_compute; reflexivity|].
  apply (proj2 (DirectorySpec.walk_stops_at_first_failure brokenWorld (at32 xd0)
                  dirLoadedOne [visitDir ""; visitDir "/"] (visitFile "a.txt") []
                  "storage: not found" raceSchedule eq_refl eq_refl eq_refl)).
Defined.

End MoreScenarios.
